(** * script_scanner: a shallow embedding of [script_scanner.py]

    The pipeline turns a photographed script page into a roster of character
    ids.  This file embeds the pure parts of the pipeline — name resolution,
    the chroma filter, the crop geometry, the height normalisation, the title
    parser and the JSON assembly — and proves the properties of the
    specification about them.

    Conventions of the embedding:
    - a Python [str] is the list of its code points ([N]);
    - a Python [int] is a [Z]; a [uint8] array element is a [Z] in [0, 256)
      with its wrap-around written out;
    - a Python [float] is a binary64 number, given by an integer mantissa of
      at most 53 bits and a power-of-two exponent, with round-to-nearest-even;
    - a function that may raise returns a [result]: [Ok v] or [Raise e];
    - the dict [character_mapping] is an association list in insertion order
      (the order [dict.keys()] iterates in). *)

From Stdlib Require Import List ZArith NArith Arith Bool Lia String Ascii.
From Stdlib Require Import DecimalString Floats.SpecFloat.
Import ListNotations.

Set Implicit Arguments.

(** ** Python values *)

Module Py.

(** A code point. *)
Definition char := N.

(** A [str]. *)
Definition str := list char.

(** The [str] of an ASCII literal. *)
Definition lit (s : string) : str :=
  map N_of_ascii (list_ascii_of_string s).

Definition char_eqb (a b : char) : bool := N.eqb a b.

Fixpoint str_eqb (s t : str) : bool :=
  match s, t with
  | [], [] => true
  | a :: s', b :: t' => char_eqb a b && str_eqb s' t'
  | _, _ => false
  end.

(** The exceptions the embedded functions raise. *)
Inductive exn : Type :=
| RuntimeError (msg : str)
| ValueError (msg : str)
| ZeroDivisionError (msg : str)
| cv2_error (msg : str).

(** The outcome of a call: a value or a raised exception. *)
Inductive result (A : Type) : Type :=
| Ok (v : A)
| Raise (e : exn).

Arguments Ok {A} v.
Arguments Raise {A} e.

Definition bind {A B} (r : result A) (k : A -> result B) : result B :=
  match r with
  | Ok v => k v
  | Raise e => Raise e
  end.

(** [str(n)] for an int. *)
Definition str_of_int (n : Z) : str :=
  lit (NilZero.string_of_int (Z.to_int n)).

End Py.

Import Py.

Notation "x <- r ;; k" := (bind r (fun x => k))
  (at level 61, r at next level, right associativity).

(** ** The edit distance of the [Levenshtein] package *)

Module Levenshtein.

Definition min3 (a b c : nat) : nat := Nat.min a (Nat.min b c).

Definition cost (a b : char) : nat := if char_eqb a b then 0 else 1.

(** The distances from the empty string to every suffix of [t], longest
    suffix first. *)
Fixpoint base_row (t : str) : list nat :=
  match t with
  | [] => [0]
  | _ :: t' => S (List.length t') :: base_row t'
  end.

(** One step of the dynamic programme: from the row of [s] (the distances
    from [s] to every suffix of [t]) to the row of [a :: s]. *)
Fixpoint next_row (a : char) (t : str) (prev : list nat) : list nat :=
  match t, prev with
  | b :: t', up :: prev' =>
      let rest := next_row a t' prev' in
      min3 (S up) (S (hd 0 rest)) (cost a b + hd 0 prev') :: rest
  | _, _ => [S (hd 0 prev)]
  end.

Fixpoint row (s t : str) : list nat :=
  match s with
  | [] => base_row t
  | a :: s' => next_row a t (row s' t)
  end.

(** [Levenshtein.distance(s, t)]: insertions, deletions and substitutions
    cost 1 each. *)
Definition distance (s t : str) : nat := hd 0 (row s t).

(** An alignment of [s] with [t] that uses [n] edits. *)
Inductive edits : str -> str -> nat -> Prop :=
| edits_nil : edits [] [] 0
| edits_keep a s t n : edits s t n -> edits (a :: s) (a :: t) n
| edits_substitute a b s t n : edits s t n -> edits (a :: s) (b :: t) (S n)
| edits_delete a s t n : edits s t n -> edits (a :: s) t (S n)
| edits_insert b s t n : edits s t n -> edits s (b :: t) (S n).

End Levenshtein.

(** ** The name table and the name resolver *)

Module Dict.

(** A [dict] from [str] to [str], in insertion order. *)
Definition t := list (str * str).

(** [d.keys()], in iteration order. *)
Definition keys (d : t) : list str := map fst d.

(** [d.get(k)]: the value, or [None]. *)
Fixpoint get (d : t) (k : str) : option str :=
  match d with
  | [] => None
  | (k', v) :: d' => if str_eqb k' k then Some v else get d' k
  end.

(** [d[k] = v]: an existing key keeps its place, a new one goes last. *)
Fixpoint setitem (d : t) (k v : str) : t :=
  match d with
  | [] => [(k, v)]
  | (k', v') :: d' =>
      if str_eqb k' k then (k', v) :: d' else (k', v') :: setitem d' k v
  end.

End Dict.

(** [min(items, key = lambda x: x[1])]: the first item whose second component
    is least; [ValueError] on an empty sequence. *)
Definition min_by_snd {A} (items : list (A * nat)) : result (A * nat) :=
  match items with
  | [] => Raise (ValueError (lit "min() arg is an empty sequence"))
  | x :: rest =>
      Ok (fold_left (fun best y => if snd y <? snd best then y else best)
                    rest x)
  end.

(** The message of the [RuntimeError] for a name without a match. *)
Definition no_match_message (name : str) : str :=
  lit "Failed to find a match for character name: " ++ name.

(** The body of the loop of [map_scanned_character_names_to_json_equivalent]
    for one [name]: the element appended to [json_characters], or the
    exception raised. *)
Definition resolve_name (character_mapping : Dict.t) (name : str)
  : result (option str) :=
  match Dict.get character_mapping name with
  | Some json_character => Ok (Some json_character)
  | None =>
      let dist := fun x => Levenshtein.distance name x in
      m <- min_by_snd (map (fun key => (key, dist key))
                           (Dict.keys character_mapping)) ;;
      let '(closest_match, distance) := m in
      if distance <=? 3
      then Ok (Dict.get character_mapping closest_match)
      else Raise (RuntimeError (no_match_message name))
  end.

(** [map_scanned_character_names_to_json_equivalent(names)], with the list
    [json_characters] threaded through the loop. *)
Fixpoint map_names_loop (character_mapping : Dict.t) (names : list str)
    (json_characters : list (option str)) : result (list (option str)) :=
  match names with
  | [] => Ok json_characters
  | name :: names' =>
      json_character <- resolve_name character_mapping name ;;
      map_names_loop character_mapping names'
                     (json_characters ++ [json_character])
  end.

Definition map_scanned_character_names_to_json_equivalent
    (character_mapping : Dict.t) (names : list str)
  : result (list (option str)) :=
  map_names_loop character_mapping names [].

(** ** Floats

    A Python [float] is an IEEE 754 binary64 number.  The model keeps the
    value [mant * 2 ^ expo] with [|mant| <= 2 ^ 53] and rounds every operation
    to 53 significant bits, ties to even.  The exponent is unbounded: the
    numbers of this program (page dimensions and their ratios) stay far from
    the overflow and underflow thresholds of binary64. *)

Module Float.

Open Scope Z_scope.

Record t : Type := mk { mant : Z; expo : Z }.

Definition prec : Z := 53.

(** The integer nearest to [p / q] for [0 < q], ties to the even one. *)
Definition rne_div (p q : Z) : Z :=
  let f := p / q in
  let r := p mod q in
  if 2 * r <? q then f
  else if q <? 2 * r then f + 1
  else if Z.even f then f else f + 1.

(** The number of bits of [|m|]. *)
Definition bits (m : Z) : Z := Z.log2 (Z.abs m) + 1.

(** [m * 2 ^ e] rounded to [prec] bits. *)
Definition round (m e : Z) : t :=
  let k := bits m - prec in
  if k <=? 0 then mk m e else mk (rne_div m (2 ^ k)) (e + k).

(** [p / q] rounded to [prec] bits, for [0 < q]. *)
Definition round_ratio (p q : Z) : t :=
  if p =? 0 then mk 0 0
  else
    let k0 := prec - 1 - (Z.log2 (Z.abs p) - Z.log2 q) in
    let below k :=
      Z.abs p * 2 ^ Z.max k 0 <? q * 2 ^ Z.max (- k) 0 * 2 ^ (prec - 1) in
    let k := if below k0 then k0 + 1 else k0 in
    mk (rne_div (p * 2 ^ Z.max k 0) (q * 2 ^ Z.max (- k) 0)) (- k).

(** [float(n)]. *)
Definition of_int (n : Z) : t := round n 0.

(** [x * y]. *)
Definition mul (x y : t) : t := round (mant x * mant y) (expo x + expo y).

(** [p / q] on two ints: the correctly rounded quotient. *)
Definition true_divide (p q : Z) : result t :=
  if q =? 0 then Raise (ZeroDivisionError (lit "division by zero"))
  else if q <? 0 then Ok (round_ratio (- p) (- q))
  else Ok (round_ratio p q).

(** [int(x)]: truncation toward zero. *)
Definition to_int (x : t) : Z :=
  if 0 <=? expo x then mant x * 2 ^ expo x
  else Z.quot (mant x) (2 ^ (- expo x)).

(** The literal [0.5]. *)
Definition half : t := mk 1 (-1).

(** The value of a finite float of the Standard Library's IEEE 754
    specification. *)
Definition of_spec_float (x : spec_float) : option t :=
  match x with
  | S754_zero _ => Some (mk 0 0)
  | S754_finite s m e => Some (mk (if s then Z.neg m else Z.pos m) e)
  | _ => None
  end.

(** Two floats have the same value. *)
Definition same_value (x y : t) : bool :=
  let e := Z.min (expo x) (expo y) in
  mant x * 2 ^ (expo x - e) =? mant y * 2 ^ (expo y - e).

End Float.

(** ** Arrays and images *)

(** The index a slice bound [i] denotes in a sequence of length [len]: a
    negative bound counts from the end, and bounds are clipped. *)
Definition slice_index (len i : Z) : Z :=
  if (i <? 0)%Z then Z.max (i + len) 0 else Z.min i len.

(** The number of elements of [a[start:stop]] for [len(a) = len]. *)
Definition slice_length (len start stop : Z) : Z :=
  Z.max (slice_index len stop - slice_index len start) 0.

(** [a[start:stop]]. *)
Definition slice {A} (a : list A) (start stop : Z) : list A :=
  let len := Z.of_nat (List.length a) in
  firstn (Z.to_nat (slice_length len start stop))
         (skipn (Z.to_nat (slice_index len start)) a).

(** A [numpy] array of shape [(len(rows), width, ...)]: the rows, each a list
    of [width] elements. *)
Record ndarray (A : Type) : Type := mk_ndarray {
  width : Z;
  rows : list (list A)
}.

(** Every row has [width] elements. *)
Definition well_shaped {A} (a : ndarray A) : Prop :=
  (0 <= width a)%Z /\
  Forall (fun r => Z.of_nat (List.length r) = width a) (rows a).

(** [a[y_min:y_max, x_min:x_max]]. *)
Definition slice2 {A} (a : ndarray A) (y_min y_max x_min x_max : Z)
  : ndarray A :=
  mk_ndarray (slice_length (width a) x_min x_max)
             (map (fun r => slice r x_min x_max) (slice (rows a) y_min y_max)).

(** The elementwise image of an array. *)
Definition map_ndarray {A B} (f : A -> B) (a : ndarray A) : ndarray B :=
  mk_ndarray (width a) (map (map f) (rows a)).

(** A pixel of a 3-channel 8-bit image, by channel index.  OpenCV decodes to
    the order blue, green, red. *)
Record pixel : Type := mk_pixel { ch0 : Z; ch1 : Z; ch2 : Z }.

Definition uint8 (x : Z) : Prop := (0 <= x < 256)%Z.

Definition pixel_ok (p : pixel) : Prop :=
  uint8 (ch0 p) /\ uint8 (ch1 p) /\ uint8 (ch2 p).

Definition color_image := ndarray pixel.

Definition A4_HEIGHT_PIXELS : Z := 2970.
Definition A4_WIDTH_PIXELS : Z := 2100.

(** ** The chroma filter *)

(** Subtraction of two [uint8] array elements: the result is a [uint8], so it
    wraps around. *)
Definition uint8_sub (a b : Z) : Z := ((a - b) mod 256)%Z.

(** [numpy.abs] on a [uint8] array element: an unsigned number is its own
    absolute value. *)
Definition uint8_abs (a : Z) : Z := a.

(** The 8-bit [COLOR_BGR2GRAY] of OpenCV 4 for one pixel: the luma
    [0.299 R + 0.587 G + 0.114 B] in 15-bit fixed point. *)
Definition bgr2gray (p : pixel) : Z :=
  Z.shiftr (ch0 p * 3735 + ch1 p * 19235 + ch2 p * 9798 + 16384) 15.

Definition default_threshold : Z := 30.

Section RemoveColor.

(** The per-pixel conversion of [cv2.cvtColor(image, cv2.COLOR_BGR2GRAY)]. *)
Variable gray : pixel -> Z.

(** The mask of pixels that are not close to being grey, at one pixel. *)
Definition non_grey_mask (threshold : Z) (p : pixel) : bool :=
  let diff_rg := uint8_abs (uint8_sub (ch0 p) (ch1 p)) in
  let diff_rb := uint8_abs (uint8_sub (ch0 p) (ch2 p)) in
  let diff_gb := uint8_abs (uint8_sub (ch1 p) (ch2 p)) in
  ((diff_rg >? threshold) || (diff_rb >? threshold)
   || (diff_gb >? threshold))%Z.

(** What [remove_color] leaves at one pixel. *)
Definition remove_color_pixel (threshold : Z) (p : pixel) : Z :=
  if non_grey_mask threshold p then 255%Z else gray p.

(** [remove_color(image, threshold)]. *)
Definition remove_color (image : color_image) (threshold : Z) : ndarray Z :=
  map_ndarray (remove_color_pixel threshold) image.

End RemoveColor.

(** ** The geometric normaliser *)

(** [image.shape[:2]]. *)
Definition shape {A} (a : ndarray A) : Z * Z :=
  (Z.of_nat (List.length (rows a)), width a).

(** The size [normalize_height] asks [cv2.resize] for, as
    [(h_norm, w_norm)], for an image of [h] rows and [w] columns. *)
Definition normalize_height_size (h w height : Z) : result (Z * Z) :=
  aspect_ratio <- Float.true_divide w h ;;
  Ok (height, Float.to_int (Float.mul (Float.of_int height) aspect_ratio)).

Section NormalizeHeight.

(** [cv2.resize(image, (w, h))]. *)
Variable resize : color_image -> Z -> Z -> result color_image.

(** [normalize_height(image, height)]. *)
Definition normalize_height (image : color_image) (height : Z)
  : result color_image :=
  let '(h, w) := shape image in
  size <- normalize_height_size h w height ;;
  let '(h_norm, w_norm) := size in
  resize image w_norm h_norm.

End NormalizeHeight.

(** ** The region extractor *)

(** The message of the [RuntimeError] for a page that is too narrow. *)
Definition narrow_message (width : Z) : str :=
  lit "Image is narrower than expected. width = " ++ str_of_int width
  ++ lit ".".

(** [int((width - A4_WIDTH_PIXELS) * 0.5)]. *)
Definition left_margin_size (width : Z) : Z :=
  Float.to_int
    (Float.mul (Float.of_int (width - A4_WIDTH_PIXELS)) Float.half).

(** The bounds [(y_min, y_max, x_min, x_max)] of the crop for a page of the
    given width. *)
Definition character_names_bounds (width : Z) : Z * Z * Z * Z :=
  let '(x_min, x_max) := (180, 414)%Z in
  let '(y_min, y_max) := (140, 2925)%Z in
  let x_min := (x_min + left_margin_size width)%Z in
  let x_max := (x_max + left_margin_size width)%Z in
  (y_min, y_max, x_min, x_max).

(** [crop_to_character_names(script_image)]. *)
Definition crop_to_character_names {A} (script_image : ndarray A)
  : result (ndarray A) :=
  let width := width script_image in
  if (width <? 1500)%Z then Raise (RuntimeError (narrow_message width))
  else
    let '(y_min, y_max, x_min, x_max) := character_names_bounds width in
    Ok (slice2 script_image y_min y_max x_min x_max).

(** ** Text: [strip], [split] and [replace] *)

(** The code points [str.strip()] removes: those of [str.isspace()]. *)
Definition is_space (c : char) : bool :=
  ((9 <=? c) && (c <=? 13) || (28 <=? c) && (c <=? 32)
   || (c =? 133) || (c =? 160) || (c =? 5760)
   || (8192 <=? c) && (c <=? 8202)
   || (c =? 8232) || (c =? 8233) || (c =? 8239) || (c =? 8287)
   || (c =? 12288))%N.

(** [s.lstrip()]. *)
Fixpoint lstrip (s : str) : str :=
  match s with
  | [] => []
  | c :: s' => if is_space c then lstrip s' else s
  end.

(** [s.rstrip()]. *)
Definition rstrip (s : str) : str := rev (lstrip (rev s)).

(** [s.strip()]. *)
Definition strip (s : str) : str := rstrip (lstrip s).

(** What follows the prefix [sep] in [s], when [s] starts with [sep]. *)
Fixpoint after_prefix (sep s : str) : option str :=
  match sep, s with
  | [], _ => Some s
  | a :: sep', b :: s' => if char_eqb a b then after_prefix sep' s' else None
  | _ :: _, [] => None
  end.

(** The text before and the text after the leftmost occurrence of [sep] in
    [s]. *)
Fixpoint partition (sep s : str) : option (str * str) :=
  match after_prefix sep s with
  | Some rest => Some ([], rest)
  | None =>
      match s with
      | [] => None
      | c :: s' =>
          match partition sep s' with
          | Some (before, rest) => Some (c :: before, rest)
          | None => None
          end
      end
  end.

(** [s.split(sep, 1)] for a non-empty [sep]. *)
Definition split1 (sep s : str) : list str :=
  match partition sep s with
  | Some (before, rest) => [before; rest]
  | None => [s]
  end.

(** [s.replace(old, new)] for a one-character [old]. *)
Definition replace (old : char) (new s : str) : str :=
  flat_map (fun c => if char_eqb c old then new else [c]) s.

Definition LF : char := 10%N.
Definition CR : char := 13%N.
Definition quote : char := 34%N.
Definition backslash : char := 92%N.

(** An ASCII literal in which an apostrophe stands for a double quote. *)
Definition litq (s : string) : str :=
  map (fun c => if char_eqb c 39%N then quote else c) (lit s).

(** ** The metadata parser *)

(** The part of [extract_script_meta_data] after recognition: from
    [scanned_title_raw] to [(script_name, author)]. *)
Definition script_meta_data_of_title (scanned_title_raw : str) : str * str :=
  let script_name : str := [] in
  let author : str := [] in
  let title_split := split1 (lit "by") (strip scanned_title_raw) in
  match title_split with
  | [part0; part1] => (strip part0, strip part1)
  | _ => (scanned_title_raw, author)
  end.

Section ExtractScriptMetaData.

Variable A : Type.

(** [cv2.cvtColor(image, cv2.COLOR_BGR2RGB)]. *)
Variable cvtColor_BGR2RGB : ndarray A -> ndarray A.

(** [pytesseract.image_to_string(image, timeout = 3)]. *)
Variable image_to_string : ndarray A -> result str.

(** [extract_script_meta_data(script_image)]: a [RuntimeError] of the
    recogniser is raised again with the message of this program. *)
Definition extract_script_meta_data (script_image : ndarray A)
  : result (str * str) :=
  let scaled_image_width := width script_image in
  let title_image := slice2 script_image 50 100 0 scaled_image_width in
  let title_image := cvtColor_BGR2RGB title_image in
  match image_to_string title_image with
  | Ok scanned_title_raw => Ok (script_meta_data_of_title scanned_title_raw)
  | Raise (RuntimeError _) =>
      Raise (RuntimeError (lit
        "Image processing took too long when scanning script metadata"))
  | Raise e => Raise e
  end.

End ExtractScriptMetaData.

(** ** The document assembler *)

(** How an element of [characters] is formatted inside an f-string. *)
Definition format (x : option str) : str :=
  match x with
  | Some s => s
  | None => lit "None"
  end.

(** The loop of [combine_to_json_string]: one [,"name"] per character. *)
Fixpoint append_characters (json : str) (characters : list (option str))
  : str :=
  match characters with
  | [] => json
  | name :: characters' =>
      append_characters (json ++ litq ",'" ++ format name ++ litq "'")
                        characters'
  end.

(** [combine_to_json_string(characters, script_name, author)]. *)
Definition combine_to_json_string (characters : list (option str))
    (script_name author : str) : str :=
  let json := litq "[{'id':'_meta','author':'" ++ author
              ++ litq "','name':'" ++ script_name ++ litq "'}" in
  let json := append_characters json characters in
  let json := json ++ lit "]" in
  replace CR [] (replace LF [] json).

(** ** The name table file *)

Definition TAB : char := 9%N.

(** [s.split(sep)] for a one-character [sep]: the parts between the
    occurrences of [sep], empty parts included. *)
Fixpoint split_on (sep : char) (s : str) : list str :=
  match s with
  | [] => [[]]
  | c :: s' =>
      if char_eqb c sep then [] :: split_on sep s'
      else
        match split_on sep s' with
        | part :: parts => (c :: part) :: parts
        | [] => [[c]]
        end
  end.

(** The body of the loop of [load_character_mapping] for one [line] of the
    file: the mapping after it. *)
Definition load_line (character_mapping : Dict.t) (line : str) : Dict.t :=
  let columns := split_on TAB (strip line) in
  match columns with
  | [key; value] => Dict.setitem character_mapping key value
  | _ => character_mapping
  end.

(** [load_character_mapping()], from the lines the file yields and the
    mapping before the call to the mapping after it. *)
Definition load_character_mapping (file : list str)
    (character_mapping : Dict.t) : Dict.t :=
  fold_left load_line file character_mapping.

(** The line of the file for one entry. *)
Definition table_line (entry : str * str) : str :=
  fst entry ++ [TAB] ++ snd entry ++ [LF].

(** ** The character names of a page *)

(** The part of [extract_character_names] between recognition and
    resolution: from [character_names_raw] to [character_names]. *)
Definition character_names_of_text (character_names_raw : str) : list str :=
  let character_names := split_on LF (strip character_names_raw) in
  filter (fun line => negb (str_eqb (strip line) [])) character_names.

(** How [extract_character_names] treats the outcome of the recogniser: a
    [RuntimeError] is raised again with the message of this program. *)
Definition took_too_long (what : str) (r : result str) : result str :=
  match r with
  | Raise (RuntimeError _) =>
      Raise (RuntimeError
               (lit "Image processing took too long when scanning " ++ what))
  | _ => r
  end.

Section ExtractCharacterNames.

Variable character_mapping : Dict.t.

(** The per-pixel conversion of [cv2.cvtColor(image, cv2.COLOR_BGR2GRAY)]. *)
Variable gray : pixel -> Z.

(** What the recogniser is given. *)
Variable rgb_image : Type.

(** [cv2.cvtColor(image, cv2.COLOR_BGR2RGB)] on the filtered crop. *)
Variable cvtColor_BGR2RGB : ndarray Z -> result rgb_image.

(** [pytesseract.image_to_string(image, config = "--psm 4", timeout = 3)]. *)
Variable image_to_string : rgb_image -> result str.

(** [extract_character_names(script_image)]. *)
Definition extract_character_names (script_image : color_image)
  : result (list (option str)) :=
  character_names_image <- crop_to_character_names script_image ;;
  let character_names_image :=
    remove_color gray character_names_image default_threshold in
  character_names_image <- cvtColor_BGR2RGB character_names_image ;;
  character_names_raw <-
    took_too_long (lit "character names")
                  (image_to_string character_names_image) ;;
  let character_names := character_names_of_text character_names_raw in
  map_scanned_character_names_to_json_equivalent character_mapping
                                                 character_names.

End ExtractCharacterNames.

(** ** The whole pipeline *)

Section ScriptImageToJson.

Variable character_mapping : Dict.t.
Variable gray : pixel -> Z.
Variable rgb_image : Type.

(** [cv2.resize(image, (w, h))]. *)
Variable resize : color_image -> Z -> Z -> result color_image.

(** [cv2.cvtColor(image, cv2.COLOR_BGR2RGB)], on the filtered crop and on the
    title band. *)
Variable names_BGR2RGB : ndarray Z -> result rgb_image.
Variable title_BGR2RGB : color_image -> color_image.

(** [pytesseract.image_to_string], on the name column and on the title
    band. *)
Variable names_to_string : rgb_image -> result str.
Variable title_to_string : color_image -> result str.

(** [script_image_to_json(input_image)]. *)
Definition script_image_to_json (input_image : color_image)
  : result (str * str * str) :=
  processed_script_image <-
    normalize_height resize input_image A4_HEIGHT_PIXELS ;;
  character_names <-
    extract_character_names character_mapping gray names_BGR2RGB
                            names_to_string processed_script_image ;;
  meta <- extract_script_meta_data title_BGR2RGB title_to_string
                                   processed_script_image ;;
  let '(script_name, author) := meta in
  let json := combine_to_json_string character_names script_name author in
  Ok (script_name, author, json).

End ScriptImageToJson.

(** ** The chat command *)

Module Discord.

(** An attachment of a message: its media type, when it has one, and the
    address of its content. *)
Record attachment : Type := mk_attachment {
  content_type : option str;
  url : str
}.

(** A message: its attachments and, for a reply, the reference to the message
    it replies to, with that message's id when it is known. *)
Record message : Type := mk_message {
  attachments : list attachment;
  reference : option (option N)
}.

(** The outcome of a call of this layer: a value, the [AttributeError] of an
    attribute looked up on [None], or an exception of the layers below. *)
Inductive outcome (A : Type) : Type :=
| Returned (v : A)
| AttributeError (msg : str)
| Failed (e : exn).

Arguments Returned {A} v.
Arguments AttributeError {A} msg.
Arguments Failed {A} e.

(** [s.startswith(prefix)]. *)
Definition startswith (s prefix : str) : bool :=
  match after_prefix prefix s with
  | Some _ => true
  | None => false
  end.

(** [get_referenced_image(message)]: the first attachment when it is an
    image, [None] otherwise. *)
Definition get_referenced_image (message : message)
  : outcome (option attachment) :=
  match attachments message with
  | attachment :: _ =>
      match content_type attachment with
      | None =>
          AttributeError
            (litq "'NoneType' object has no attribute 'startswith'")
      | Some media_type =>
          if startswith media_type (lit "image/")
          then Returned (Some attachment)
          else Returned None
      end
  | [] => Returned None
  end.

(** The text of the reply for a page that was read. *)
Definition reply_body (script_name author json : str) : str :=
  let reply_body : str := [] in
  let reply_body :=
    if 0 <? List.length script_name then
      if 0 <? List.length author
      then script_name ++ lit " by " ++ author ++ [LF]
      else script_name ++ [LF]
    else reply_body in
  reply_body ++ lit "```json" ++ [LF] ++ json ++ [LF] ++ lit "```".

Definition please_attach : str := lit "Please attach a script image.".
Definition went_wrong : str := lit "Something went wrong.".

Section Commands.

(** [await ctx.channel.fetch_message(message_id)]. *)
Variable fetch_message : option N -> result message.

(** [requests.get(url)] followed by [bytesio_to_cv2_image]: the decoded
    image, or [None] when the bytes are no image. *)
Variable download : str -> result (option color_image).

(** [script_image_to_json(image)] on a decoded image. *)
Variable script_image_to_json : color_image -> result (str * str * str).

(** [await ctx.reply(text)]. *)
Variable reply : str -> result unit.

(** [get_referenced_image_or_parent(ctx)], from [ctx.message]. *)
Definition get_referenced_image_or_parent (ctx_message : message)
  : outcome (option attachment) :=
  match get_referenced_image ctx_message with
  | Returned None =>
      match reference ctx_message with
      | Some message_id =>
          match fetch_message message_id with
          | Ok parent_message => get_referenced_image parent_message
          | Raise e => Failed e
          end
      | None => Returned None
      end
  | found_or_raised => found_or_raised
  end.

(** One [await ctx.reply(text)] as the last action of the command: the
    texts replied so far, and how the command ends. *)
Definition reply_and_return (sent : list str) (text : str)
  : list str * outcome unit :=
  match reply text with
  | Ok _ => (sent ++ [text], Returned tt)
  | Raise e => (sent, Failed e)
  end.

(** [process_json_request(ctx)], from [ctx.message]: the texts replied, in
    order, and how the command ends. *)
Definition process_json_request (ctx_message : message)
  : list str * outcome unit :=
  match get_referenced_image_or_parent ctx_message with
  | AttributeError msg => ([], AttributeError msg)
  | Failed e => ([], Failed e)
  | Returned None => reply_and_return [] please_attach
  | Returned (Some attached_image) =>
      match download (url attached_image) with
      | Raise _ => reply_and_return [] went_wrong
      | Ok image =>
          match image with
          | None => reply_and_return [] went_wrong
          | Some image =>
              match script_image_to_json image with
              | Raise _ => reply_and_return [] went_wrong
              | Ok (script_name, author, json) =>
                  match reply (reply_body script_name author json) with
                  | Ok _ =>
                      ([reply_body script_name author json], Returned tt)
                  | Raise _ => reply_and_return [] went_wrong
                  end
              end
          end
      end
  end.

End Commands.

End Discord.

(** ** Notions of the specification *)

(** *** Rounding a ratio [p / q], [0 < q], to an integer *)

(** [n] is an integer nearest to [p / q]. *)
Definition nearest_integer (p q n : Z) : Prop :=
  (2 * Z.abs (n * q - p) <= q)%Z.

(** Ties to the even integer: Python's [round]. *)
Definition round_half_even (p q : Z) : Z := Float.rne_div p q.

(** Ties upward. *)
Definition round_half_up (p q : Z) : Z := ((2 * p + q) / (2 * q))%Z.

(** Ties away from zero. *)
Definition round_half_away (p q : Z) : Z :=
  (Z.sgn p * ((2 * Z.abs p + q) / (2 * q)))%Z.

(** Truncation toward zero. *)
Definition truncate (p q : Z) : Z := Z.quot p q.

(** *** Resolvable names *)

(** [k] is the closest key of the table to [name]: no key is nearer, and
    among the keys as near as [k] it comes first in the table. *)
Definition closest_key (d : Dict.t) (name k : str) : Prop :=
  exists before after,
    Dict.keys d = before ++ k :: after /\
    (forall k', In k' before ->
       Levenshtein.distance name k < Levenshtein.distance name k') /\
    (forall k', In k' after ->
       Levenshtein.distance name k <= Levenshtein.distance name k').

(** [name] is neither a key of the table nor within 3 edits of one. *)
Definition unmatched (d : Dict.t) (name : str) : Prop :=
  Dict.get d name = None /\
  forall k, In k (Dict.keys d) -> 3 < Levenshtein.distance name k.

(** *** The text of a JSON document *)

(** The character a one-letter escape stands for. *)
Definition json_escape (e : char) : option char :=
  (if e =? 34 then Some 34 else if e =? 92 then Some 92
   else if e =? 47 then Some 47 else if e =? 98 then Some 8
   else if e =? 102 then Some 12 else if e =? 110 then Some 10
   else if e =? 114 then Some 13 else if e =? 116 then Some 9
   else None)%N.

Definition hex_digit (c : char) : option N :=
  (if (48 <=? c) && (c <=? 57) then Some (c - 48)
   else if (97 <=? c) && (c <=? 102) then Some (c - 87)
   else if (65 <=? c) && (c <=? 70) then Some (c - 55)
   else None)%N.

Definition hex4 (a b c d : char) : option char :=
  match hex_digit a, hex_digit b, hex_digit c, hex_digit d with
  | Some x, Some y, Some z, Some w =>
      Some (((x * 16 + y) * 16 + z) * 16 + w)%N
  | _, _, _, _ => None
  end.

(** Reads a JSON string from just after its opening quote: the string it
    denotes and the text after its closing quote.  A [\u] escape denotes its
    code unit. *)
Fixpoint json_string_tail (s : str) : option (str * str) :=
  let cons_to c r :=
    match r with
    | Some (v, rest) => Some (c :: v, rest)
    | None => None
    end in
  match s with
  | [] => None
  | c :: s' =>
      if char_eqb c quote then Some ([], s')
      else if char_eqb c backslash then
        match s' with
        | [] => None
        | e :: s'' =>
            match json_escape e with
            | Some v => cons_to v (json_string_tail s'')
            | None =>
                if char_eqb e 117%N then
                  match s'' with
                  | h1 :: h2 :: h3 :: h4 :: s3 =>
                      match hex4 h1 h2 h3 h4 with
                      | Some v => cons_to v (json_string_tail s3)
                      | None => None
                      end
                  | _ => None
                  end
                else None
            end
        end
      else if (c <? 32)%N then None
      else cons_to c (json_string_tail s')
  end.

(** Reads the elements after the first one, each [,"..."], up to the closing
    bracket that ends the text. *)
Fixpoint json_id_elements (fuel : nat) (s : str) : option (list str) :=
  match fuel with
  | O => None
  | S fuel' =>
      if str_eqb s (lit "]") then Some []
      else
        match after_prefix (litq ",'") s with
        | None => None
        | Some s1 =>
            match json_string_tail s1 with
            | None => None
            | Some (id, s2) =>
                match json_id_elements fuel' s2 with
                | Some ids => Some (id :: ids)
                | None => None
                end
            end
        end
  end.

(** Reads a script document, a JSON array without white space whose first
    element is [{"id":"_meta","author":<string>,"name":<string>}] and whose
    other elements are strings: the author, the name and the ids. *)
Definition read_script_document (text : str)
  : option (str * str * list str) :=
  match after_prefix (litq "[{'id':'_meta','author':'") text with
  | None => None
  | Some s1 =>
      match json_string_tail s1 with
      | None => None
      | Some (author, s2) =>
          match after_prefix (litq ",'name':'") s2 with
          | None => None
          | Some s3 =>
              match json_string_tail s3 with
              | None => None
              | Some (name, s4) =>
                  match after_prefix (lit "}") s4 with
                  | None => None
                  | Some s5 =>
                      match json_id_elements (S (List.length s5)) s5 with
                      | Some ids => Some (author, name, ids)
                      | None => None
                      end
                  end
              end
          end
      end
  end.

(** A character a JSON string may hold as it is. *)
Definition plain (c : char) : bool :=
  ((32 <=? c) && negb (c =? 34) && negb (c =? 92))%N.

(** A string whose characters, line breaks apart, a JSON string may hold as
    they are. *)
Definition plain_but_line_breaks (s : str) : Prop :=
  Forall (fun c => c = LF \/ c = CR \/ plain c = true) s.

(** [s] without its line feeds and carriage returns. *)
Definition without_line_breaks (s : str) : str :=
  filter (fun c => negb (char_eqb c LF) && negb (char_eqb c CR)) s.

(** *** Notions of the proofs *)

(** [r] is the first item of [l] whose second component is least. *)
Definition first_min {A} (l : list (A * nat)) (r : A * nat) : Prop :=
  exists before after,
    l = before ++ r :: after /\
    (forall y, In y before -> snd r < snd y) /\
    (forall y, In y after -> snd r <= snd y).

(** One [,"name"] of the loop. *)
Definition element (name : str) : str := litq ",'" ++ name ++ litq "'".

(** A string of characters a JSON string may hold as they are. *)
Definition all_plain (s : str) : Prop := Forall (fun c => plain c = true) s.

(** A small name table for the examples. *)
Definition example_table : Dict.t :=
  [ (lit "Scarlet Woman", lit "scarlet_woman");
    (lit "Imp", lit "imp");
    (lit "Baron", lit "baron") ].

(** *** Notions of the further properties *)

(** [sep.join(parts)] for a one-character [sep]. *)
Fixpoint join (sep : char) (parts : list str) : str :=
  match parts with
  | [] => []
  | [part] => part
  | part :: parts' => part ++ sep :: join sep parts'
  end.

(** [s] is all white space. *)
Definition blank (s : str) : Prop := Forall (fun c => is_space c = true) s.

(** [s] starts with a character that is no white space. *)
Definition starts_clean (s : str) : Prop :=
  match s with
  | c :: _ => is_space c = false
  | [] => False
  end.

(** [s] ends with a character that is no white space. *)
Definition ends_clean (s : str) : Prop := starts_clean (rev s).

(** What every entry of a loaded table satisfies: the key starts and the
    value ends with a character that is no white space, and neither holds a
    tab. *)
Definition loaded_entry (entry : str * str) : Prop :=
  starts_clean (fst entry) /\ ends_clean (snd entry) /\
  ~ In TAB (fst entry) /\ ~ In TAB (snd entry).

(** [sub] occurs in [s]. *)
Definition occurs (sub s : str) : Prop :=
  exists before after, s = before ++ sub ++ after.

(** The table file in the examples: a repeated name, a line without a tab, a
    line with three columns and a line whose id is missing. *)
Definition example_file : list str :=
  [ table_line (lit "Imp", lit "imp");
    lit "# characters";
    table_line (lit "Scarlet Woman", lit "scarlet_woman");
    lit "Baron" ++ [TAB] ++ lit "baron" ++ [TAB] ++ lit "minion" ++ [LF];
    lit "Mayor" ++ [TAB; LF];
    table_line (lit "Imp", lit "imp_2") ].


(** [line.strip() != ''] fails: the filter of [extract_character_names]
    drops the line. *)
Definition blankb (line : str) : bool := str_eqb (strip line) [].

(** What the filter makes of the difference of two channels [a] and [b],
    taken in this order: the pair counts as coloured when [a] exceeds [b] by
    more than the threshold, or when [a] is below [b] by less than 256 minus
    the threshold. *)
Definition pair_masked (threshold a b : Z) : Prop :=
  (threshold < a - b \/ (a < b /\ b - a < 256 - threshold))%Z.

(** The element of an array at row [y] and column [x]. *)
Definition at2 {A} (a : ndarray A) (y x : nat) : option A :=
  match nth_error (rows a) y with
  | Some r => nth_error r x
  | None => None
  end.

(** * Properties *)

Unset Implicit Arguments.

(** ** Strings *)

Lemma char_eqb_eq (a b : char) : char_eqb a b = true <-> a = b.
Proof. apply N.eqb_eq. Qed.

Lemma char_eqb_refl (a : char) : char_eqb a a = true.
Proof. apply N.eqb_refl. Qed.

Lemma char_eqb_neq (a b : char) : char_eqb a b = false <-> a <> b.
Proof. apply N.eqb_neq. Qed.

Lemma str_eqb_eq (s t : str) : str_eqb s t = true <-> s = t.
Proof.
  revert t; induction s as [|a s IH]; intros [|b t]; simpl;
    try (split; [discriminate | discriminate]); try tauto.
  rewrite andb_true_iff, char_eqb_eq, IH.
  split; [intros [-> ->]; reflexivity | intros H; injection H; auto].
Qed.

Lemma str_eqb_refl (s : str) : str_eqb s s = true.
Proof. apply str_eqb_eq; reflexivity. Qed.

Lemma str_eqb_neq (s t : str) : str_eqb s t = false <-> s <> t.
Proof.
  rewrite <- str_eqb_eq. destruct (str_eqb s t); split; congruence.
Qed.

Lemma after_prefix_app (p x : str) : after_prefix p (p ++ x) = Some x.
Proof.
  induction p as [|c p IH]; [destruct x; reflexivity|].
  cbn [app after_prefix]. rewrite char_eqb_refl. exact IH.
Qed.

(** ** Arrays *)

Lemma slice_index_bounds (len i : Z) :
  (0 <= len -> 0 <= slice_index len i <= len)%Z.
Proof.
  unfold slice_index. destruct (i <? 0)%Z eqn:E;
    [apply Z.ltb_lt in E | apply Z.ltb_ge in E]; lia.
Qed.

(** The length of a slice. *)
Lemma slice_length_spec (A : Type) (a : list A) (start stop : Z) :
  Z.of_nat (List.length (slice a start stop))
  = slice_length (Z.of_nat (List.length a)) start stop.
Proof.
  unfold slice. rewrite length_firstn, length_skipn.
  pose proof (slice_index_bounds (Z.of_nat (List.length a)) start
                ltac:(lia)).
  pose proof (slice_index_bounds (Z.of_nat (List.length a)) stop
                ltac:(lia)).
  unfold slice_length in *. lia.
Qed.

Lemma In_slice (A : Type) (a : list A) (start stop : Z) (x : A) :
  In x (slice a start stop) -> In x a.
Proof.
  unfold slice. intros H.
  set (n := Z.to_nat _) in H. set (k := Z.to_nat _) in H.
  rewrite <- (firstn_skipn k a). apply in_or_app. right.
  rewrite <- (firstn_skipn n (skipn k a)). apply in_or_app. left.
  exact H.
Qed.

Lemma width_slice2 (A : Type) (a : ndarray A)
    (y_min y_max x_min x_max : Z) :
  width (slice2 a y_min y_max x_min x_max)
  = slice_length (width a) x_min x_max.
Proof. reflexivity. Qed.

(** A slice of a well-shaped array is well shaped. *)
Lemma slice2_well_shaped (A : Type) (a : ndarray A)
    (y_min y_max x_min x_max : Z) :
  well_shaped a -> well_shaped (slice2 a y_min y_max x_min x_max).
Proof.
  intros [Hw Hr]. split; simpl.
  - unfold slice_length. lia.
  - apply Forall_forall. intros r Hin. apply in_map_iff in Hin.
    destruct Hin as (r0 & <- & Hin). apply In_slice in Hin.
    rewrite Forall_forall in Hr. rewrite slice_length_spec, (Hr r0 Hin).
    reflexivity.
Qed.

(** ** The edit distance *)

Module LevenshteinFacts.

Import Levenshtein.

Lemma row_cons (s : str) (b : char) (t : str) :
  row s (b :: t) = distance s (b :: t) :: row s t.
Proof.
  unfold distance.
  induction s as [|a s IH]; simpl; [reflexivity|].
  rewrite IH; simpl. reflexivity.
Qed.

Lemma distance_nil_l (t : str) : distance [] t = List.length t.
Proof. destruct t; reflexivity. Qed.

Lemma row_nil_r (s : str) : row s [] = [List.length s].
Proof.
  induction s as [|a s IH]; simpl; [reflexivity|].
  rewrite IH. reflexivity.
Qed.

Lemma distance_nil_r (s : str) : distance s [] = List.length s.
Proof. unfold distance. rewrite row_nil_r. reflexivity. Qed.

(** The recurrence of the edit distance. *)
Lemma distance_cons (a : char) (s : str) (b : char) (t : str) :
  distance (a :: s) (b :: t) =
  min3 (S (distance s (b :: t))) (S (distance (a :: s) t))
       (cost a b + distance s t).
Proof.
  unfold distance at 1. simpl row. rewrite row_cons. simpl.
  reflexivity.
Qed.

Lemma distance_delete (a : char) (s t : str) :
  distance (a :: s) t <= S (distance s t).
Proof.
  destruct t as [|b t].
  - rewrite !distance_nil_r. simpl. lia.
  - rewrite distance_cons. unfold min3. lia.
Qed.

Lemma distance_insert (b : char) (s t : str) :
  distance s (b :: t) <= S (distance s t).
Proof.
  destruct s as [|a s].
  - rewrite !distance_nil_l. simpl. lia.
  - rewrite distance_cons. unfold min3. lia.
Qed.

(** No alignment uses fewer edits than [distance]. *)
Lemma distance_le_edits (s t : str) (n : nat) :
  edits s t n -> distance s t <= n.
Proof.
  induction 1 as [|a s t n _ IH|a b s t n _ IH|a s t n _ IH|b s t n _ IH].
  - reflexivity.
  - rewrite distance_cons. unfold min3, cost.
    rewrite char_eqb_refl. lia.
  - rewrite distance_cons. unfold min3, cost.
    destruct (char_eqb a b); lia.
  - pose proof (distance_delete a s t). lia.
  - pose proof (distance_insert b s t). lia.
Qed.

Lemma edits_insert_all (t : str) : edits [] t (List.length t).
Proof. induction t; simpl; constructor; assumption. Qed.

Lemma edits_delete_all (s : str) : edits s [] (List.length s).
Proof. induction s; simpl; constructor; assumption. Qed.

(** Some alignment uses exactly [distance] edits. *)
Lemma edits_distance (s t : str) : edits s t (distance s t).
Proof.
  revert t. induction s as [|a s IHs]; intros t.
  - rewrite distance_nil_l. apply edits_insert_all.
  - induction t as [|b t IHt].
    + rewrite distance_nil_r. apply edits_delete_all.
    + rewrite distance_cons. unfold min3.
      destruct (Nat.min_spec (Nat.min (S (distance (a :: s) t))
                                      (cost a b + distance s t))
                             (S (distance s (b :: t)))) as [[_ E]|[_ E]];
        rewrite Nat.min_comm, E; clear E.
      * destruct (Nat.min_spec (S (distance (a :: s) t))
                               (cost a b + distance s t)) as [[_ E]|[_ E]];
          rewrite E; clear E.
        -- apply edits_insert, IHt.
        -- unfold cost. destruct (char_eqb a b) eqn:Eab.
           ++ apply char_eqb_eq in Eab. subst b. apply edits_keep, IHs.
           ++ apply edits_substitute, IHs.
      * apply edits_delete, IHs.
Qed.

(** [distance s t] is the least number of insertions, deletions and
    substitutions that align [s] with [t]. *)
Theorem distance_is_edit_distance (s t : str) :
  edits s t (distance s t) /\ forall n, edits s t n -> distance s t <= n.
Proof.
  split; [apply edits_distance | intros n; apply distance_le_edits].
Qed.

Lemma edits_refl (s : str) : edits s s 0.
Proof. induction s; constructor; assumption. Qed.

Lemma distance_refl (s : str) : distance s s = 0.
Proof.
  pose proof (distance_le_edits s s 0 (edits_refl s)). lia.
Qed.

End LevenshteinFacts.

(** ** The name resolver *)

Module ResolverFacts.

Import Levenshtein LevenshteinFacts.

Lemma first_min_le {A} (l : list (A * nat)) (r y : A * nat) :
  first_min l r -> In y l -> snd r <= snd y.
Proof.
  intros (before & after & -> & Hb & Ha) Hy.
  apply in_app_or in Hy. destruct Hy as [Hy|[<-|Hy]].
  - apply Hb in Hy. lia.
  - lia.
  - apply Ha; assumption.
Qed.

Lemma fold_min_first {A} (rest seen : list (A * nat)) (best : A * nat) :
  first_min seen best ->
  first_min (seen ++ rest)
    (fold_left (fun best y => if snd y <? snd best then y else best)
               rest best).
Proof.
  revert seen best. induction rest as [|y rest IH]; intros seen best Hbest.
  - simpl. rewrite app_nil_r. assumption.
  - simpl.
    replace (seen ++ y :: rest) with ((seen ++ [y]) ++ rest)
      by (rewrite <- app_assoc; reflexivity).
    apply IH. destruct (snd y <? snd best) eqn:E.
    + apply Nat.ltb_lt in E. exists seen, []. split; [reflexivity|].
      split; [|intros ? []].
      intros z Hz. pose proof (@first_min_le _ _ _ _ Hbest Hz). lia.
    + apply Nat.ltb_ge in E.
      destruct Hbest as (before & after & -> & Hb & Ha).
      exists before, (after ++ [y]). split.
      * rewrite <- app_assoc. reflexivity.
      * split; [assumption|].
        intros z Hz. apply in_app_or in Hz. destruct Hz as [Hz|[<-|[]]].
        -- apply Ha; assumption.
        -- assumption.
Qed.

(** [min] returns the first least item of a non-empty sequence. *)
Lemma min_by_snd_first {A} (x : A * nat) (rest : list (A * nat)) :
  exists r, min_by_snd (x :: rest) = Ok r /\ first_min (x :: rest) r.
Proof.
  eexists. split; [reflexivity|].
  apply (fold_min_first rest [x] x).
  exists [], []. split; [reflexivity|]. split; intros ? [].
Qed.

(** Two ways of cutting one list at an element. *)
Lemma app_cons_split {A} (l1 : list A) :
  forall (a : A) l2 l1' a' l2',
    l1 ++ a :: l2 = l1' ++ a' :: l2' ->
    (l1 = l1' /\ a = a' /\ l2 = l2') \/ In a l1' \/ In a' l1.
Proof.
  induction l1 as [|x l1 IH]; intros a l2 [|x' l1'] a' l2' E; simpl in E.
  - injection E as -> ->. left. auto.
  - injection E as -> _. right. left. left. reflexivity.
  - injection E as -> _. right. right. left. reflexivity.
  - injection E as -> E. apply IH in E.
    destruct E as [(-> & -> & ->)|[H|H]];
      [left; auto | right; left; right; exact H
       | right; right; right; exact H].
Qed.

Lemma closest_key_in (d : Dict.t) (name k : str) :
  closest_key d name k -> In k (Dict.keys d).
Proof. intros (b & a & -> & _). apply in_elt. Qed.

Lemma closest_key_le (d : Dict.t) (name k k' : str) :
  closest_key d name k -> In k' (Dict.keys d) ->
  distance name k <= distance name k'.
Proof.
  intros (b & a & -> & Hb & Ha) H.
  apply in_app_or in H. destruct H as [H|[<-|H]].
  - apply Hb in H. lia.
  - lia.
  - apply Ha; assumption.
Qed.

Lemma closest_key_unique (d : Dict.t) (name k k' : str) :
  closest_key d name k -> closest_key d name k' -> k = k'.
Proof.
  intros Hk Hk'.
  pose proof (closest_key_in d name k Hk) as Hin.
  pose proof (closest_key_in d name k' Hk') as Hin'.
  pose proof (closest_key_le d name k k' Hk Hin') as Hle.
  pose proof (closest_key_le d name k' k Hk' Hin) as Hle'.
  destruct Hk as (b & a & E & Hb & _), Hk' as (b' & a' & E' & Hb' & _).
  rewrite E in E'. apply app_cons_split in E'.
  destruct E' as [(_ & -> & _)|[H|H]]; [reflexivity | |].
  - apply Hb' in H. lia.
  - apply Hb in H. lia.
Qed.

(** The item [min] picks among the keys paired with their distances is the
    closest key. *)
Lemma first_min_closest_key (d : Dict.t) (name : str) (r : str * nat) :
  first_min (map (fun key => (key, distance name key)) (Dict.keys d)) r ->
  closest_key d name (fst r) /\ snd r = distance name (fst r).
Proof.
  intros (before & after & E & Hb & Ha).
  apply map_eq_app in E. destruct E as (kb & l2 & Ek & <- & E2).
  apply map_eq_cons in E2. destruct E2 as (k & ka & -> & <- & <-).
  simpl in *. split; [|reflexivity].
  exists kb, ka. split; [assumption|]. split; intros k' Hk'.
  - apply (Hb (k', distance name k')).
    apply (in_map (fun key => (key, distance name key))). assumption.
  - apply (Ha (k', distance name k')).
    apply (in_map (fun key => (key, distance name key))). assumption.
Qed.

(** A non-empty table has a closest key to every name. *)
Lemma closest_key_exists (d : Dict.t) (name : str) :
  d <> [] -> exists k, closest_key d name k.
Proof.
  destruct d as [|[k0 v0] d]; [congruence|]. intros _.
  destruct (min_by_snd_first (k0, distance name k0)
              (map (fun key => (key, distance name key)) (Dict.keys d)))
    as (r & _ & Hr).
  exists (fst r). apply (first_min_closest_key ((k0, v0) :: d) name r), Hr.
Qed.

Lemma get_key (d : Dict.t) (k : str) :
  In k (Dict.keys d) -> exists v, Dict.get d k = Some v.
Proof.
  induction d as [|[k' v'] d IH]; simpl; [intros []|].
  destruct (str_eqb k' k) eqn:E; [eauto|].
  intros [->|H]; [|auto].
  rewrite str_eqb_refl in E. discriminate.
Qed.

Lemma get_none (d : Dict.t) (k : str) :
  Dict.get d k = None -> ~ In k (Dict.keys d).
Proof.
  intros E H. apply get_key in H. destruct H as [v H]. congruence.
Qed.

(** What the loop body does when the name is no key of the table. *)
Lemma resolve_name_closest (d : Dict.t) (name k : str) :
  Dict.get d name = None -> closest_key d name k ->
  resolve_name d name =
  if distance name k <=? 3 then Ok (Dict.get d k)
  else Raise (RuntimeError (no_match_message name)).
Proof.
  intros Hget Hk. unfold resolve_name. rewrite Hget.
  destruct d as [|[k0 v0] d].
  - destruct Hk as (b & a & E & _). destruct b; discriminate.
  - destruct (min_by_snd_first (k0, distance name k0)
                (map (fun key => (key, distance name key)) (Dict.keys d)))
      as (r & Er & Hr).
    simpl Dict.keys. simpl map. rewrite Er. simpl bind.
    apply (first_min_closest_key ((k0, v0) :: d) name) in Hr.
    destruct Hr as [Hr Hs]. destruct r as [k' n]. simpl in Hr, Hs.
    rewrite (closest_key_unique _ _ _ _ Hk Hr). subst n. reflexivity.
Qed.

Lemma resolve_name_exact (d : Dict.t) (name id : str) :
  Dict.get d name = Some id -> resolve_name d name = Ok (Some id).
Proof. intros E. unfold resolve_name. rewrite E. reflexivity. Qed.

(** Over a non-empty table a name is resolved, or it is unmatched and the
    loop body raises the error that carries it. *)
Lemma resolve_name_cases (d : Dict.t) (name : str) :
  d <> [] ->
  (exists id, resolve_name d name = Ok (Some id) /\ ~ unmatched d name) \/
  (unmatched d name /\
   resolve_name d name = Raise (RuntimeError (no_match_message name))).
Proof.
  intros Hd. destruct (Dict.get d name) as [id|] eqn:Hget.
  - left. exists id. split; [apply resolve_name_exact, Hget|].
    intros [E _]. congruence.
  - destruct (closest_key_exists d name Hd) as [k Hk].
    rewrite (resolve_name_closest d name k Hget Hk).
    destruct (distance name k <=? 3) eqn:E.
    + apply Nat.leb_le in E. left.
      destruct (get_key d k (closest_key_in d name k Hk)) as [id Hid].
      exists id. split; [rewrite Hid; reflexivity|].
      intros [_ H]. specialize (H k (closest_key_in d name k Hk)). lia.
    + apply Nat.leb_gt in E. right. split; [|reflexivity].
      split; [assumption|]. intros k' Hk'.
      pose proof (closest_key_le d name k k' Hk Hk'). lia.
Qed.

Lemma get_in (d : Dict.t) (k v : str) :
  Dict.get d k = Some v -> In (k, v) d.
Proof.
  induction d as [|[k' v'] d IH]; simpl; [discriminate|].
  destruct (str_eqb k' k) eqn:E.
  - apply str_eqb_eq in E. intros H. injection H as ->. subst. auto.
  - auto.
Qed.

(** Assignment to a key is seen by [get] at that key and at no other. *)
Lemma get_setitem (d : Dict.t) (k v k' : str) :
  Dict.get (Dict.setitem d k v) k'
  = if str_eqb k k' then Some v else Dict.get d k'.
Proof.
  induction d as [|[k0 v0] d IH]; simpl.
  - reflexivity.
  - destruct (str_eqb k0 k) eqn:E0; simpl.
    + apply str_eqb_eq in E0. subst k0.
      destruct (str_eqb k k'); reflexivity.
    + rewrite IH. destruct (str_eqb k0 k') eqn:E1; [|reflexivity].
      apply str_eqb_eq in E1. subst k0.
      assert (str_eqb k k' = false) as ->; [|reflexivity].
      apply str_eqb_neq. apply str_eqb_neq in E0. congruence.
Qed.

(** Assignment keeps the keys of a dict distinct. *)
Lemma keys_setitem_NoDup (d : Dict.t) (k v : str) :
  NoDup (Dict.keys d) -> NoDup (Dict.keys (Dict.setitem d k v)).
Proof.
  induction d as [|[k0 v0] d IH]; simpl; intros H.
  - constructor; [intros []|constructor].
  - destruct (str_eqb k0 k) eqn:E0; [exact H|].
    inversion H as [|? ? Hn Hd]; subst. simpl. constructor; [|auto].
    intros Hin. apply get_key in Hin. destruct Hin as [v' Hv'].
    rewrite get_setitem in Hv'.
    destruct (str_eqb k k0) eqn:E1.
    + apply str_eqb_eq in E1. subst. rewrite str_eqb_refl in E0.
      discriminate.
    + apply get_in in Hv'. apply Hn.
      apply (in_map fst) in Hv'. exact Hv'.
Qed.

(** What the loop body appends is the canonical id of some entry of the
    table. *)
Lemma resolve_name_ok_id (d : Dict.t) (name : str) (x : option str) :
  resolve_name d name = Ok x ->
  exists k id, In (k, id) d /\ x = Some id.
Proof.
  intros H. destruct (Dict.get d name) as [id|] eqn:Hget.
  - rewrite (resolve_name_exact d name id Hget) in H. injection H as <-.
    exists name, id. split; [apply get_in, Hget | reflexivity].
  - destruct d as [|e d]; [discriminate|].
    destruct (closest_key_exists (e :: d) name ltac:(discriminate))
      as [k Hk].
    rewrite (resolve_name_closest (e :: d) name k Hget Hk) in H.
    destruct (distance name k <=? 3); [|discriminate].
    injection H as <-.
    destruct (get_key (e :: d) k (closest_key_in _ _ _ Hk)) as [id Hid].
    exists k, id. split; [apply get_in, Hid | exact Hid].
Qed.

(** The error for an unmatched name carries the name. *)
Lemma no_match_message_carries (name : str) :
  after_prefix (lit "Failed to find a match for character name: ")
               (no_match_message name) = Some name.
Proof. apply after_prefix_app. Qed.

End ResolverFacts.

Import ResolverFacts.

(** C1.  Over a non-empty name table, a name that is a key of the table
    resolves to that key's canonical id; a name that is no key resolves to the
    id of the closest key (least edit distance, the first such key in table
    order) when that distance is at most 3; in particular a name within 3
    edits of exactly one key [k] and more than 3 edits from every other key
    resolves to the id of [k]. *)
Theorem resolve_name_success (d : Dict.t) (name : str) :
  d <> [] ->
  (forall id, Dict.get d name = Some id ->
     resolve_name d name = Ok (Some id)) /\
  (Dict.get d name = None ->
   forall k, closest_key d name k -> Levenshtein.distance name k <= 3 ->
     exists id, Dict.get d k = Some id /\
                resolve_name d name = Ok (Some id)) /\
  (forall k, In k (Dict.keys d) -> Levenshtein.distance name k <= 3 ->
     (forall k', In k' (Dict.keys d) -> k' <> k ->
        3 < Levenshtein.distance name k') ->
     exists id, Dict.get d k = Some id /\
                resolve_name d name = Ok (Some id)).
Proof.
  intros Hd. split; [|split].
  - intros id. apply resolve_name_exact.
  - intros Hget k Hk Hle.
    destruct (get_key d k (closest_key_in d name k Hk)) as [id Hid].
    exists id. split; [assumption|].
    rewrite (resolve_name_closest d name k Hget Hk).
    apply Nat.leb_le in Hle. rewrite Hle, Hid. reflexivity.
  - intros k Hin Hle Hothers.
    destruct (get_key d k Hin) as [id Hid]. exists id. split; [assumption|].
    destruct (Dict.get d name) as [id'|] eqn:Hget.
    + assert (name = k) as ->.
      { destruct (str_eqb name k) eqn:E; [apply str_eqb_eq, E|].
        apply str_eqb_neq in E.
        assert (In name (Dict.keys d)) as Hname.
        { destruct (in_dec (list_eq_dec N.eq_dec) name (Dict.keys d))
            as [H|H]; [exact H|].
          exfalso. clear - Hget H.
          induction d as [|[k' v'] d IH]; simpl in *; [discriminate|].
          destruct (str_eqb k' name) eqn:E'.
          - apply str_eqb_eq in E'. tauto.
          - apply IH; tauto. }
        specialize (Hothers name Hname E).
        rewrite LevenshteinFacts.distance_refl in Hothers. lia. }
      rewrite Hid in Hget. injection Hget as <-.
      apply resolve_name_exact, Hid.
    + destruct (closest_key_exists d name Hd) as [k0 Hk0].
      assert (k0 = k) as ->.
      { destruct (str_eqb k0 k) eqn:E; [apply str_eqb_eq, E|].
        apply str_eqb_neq in E.
        specialize (Hothers k0 (closest_key_in d name k0 Hk0) E).
        pose proof (closest_key_le d name k0 k Hk0 Hin). lia. }
      rewrite (resolve_name_closest d name k Hget Hk0).
      apply Nat.leb_le in Hle. rewrite Hle, Hid. reflexivity.
Qed.

(** A misread name, one substitution away from a key of the example table and
    far from the others, resolves to that key's id. *)
Lemma resolve_name_success_witness :
  example_table <> [] /\
  exists id,
    Dict.get example_table (lit "Scarlet Woman") = Some id /\
    resolve_name example_table (lit "Scarlet Womon") = Ok (Some id).
Proof.
  assert (example_table <> []) as Hd by discriminate.
  split; [exact Hd|].
  destruct (resolve_name_success example_table (lit "Scarlet Womon") Hd)
    as (_ & _ & H).
  apply (H (lit "Scarlet Woman")).
  - left. reflexivity.
  - vm_compute. lia.
  - intros k' [<-|[<-|[<-|[]]]] Hne.
    + exfalso. apply Hne. reflexivity.
    + vm_compute. lia.
    + vm_compute. lia.
Defined.

(** The loop keeps the order of the names: what it returns is the list it
    started from followed by the resolutions of the names, one each. *)
Lemma map_names_loop_ok (d : Dict.t) (names : list str) :
  forall acc ids,
    map_names_loop d names acc = Ok ids ->
    exists ids', ids = acc ++ ids' /\
      Forall2 (fun name id => resolve_name d name = Ok id) names ids'.
Proof.
  induction names as [|name names IH]; intros acc ids H; simpl in H.
  - injection H as <-. exists []. rewrite app_nil_r. auto.
  - destruct (resolve_name d name) as [id|e] eqn:E; simpl in H;
      [|discriminate].
    apply IH in H. destruct H as (ids' & -> & HF).
    exists (id :: ids'). rewrite <- app_assoc. auto.
Qed.

(** The loop stops at the first name whose resolution raises. *)
Lemma map_names_loop_raise (d : Dict.t) (before : list str) :
  forall acc name after e,
    (forall m, In m before -> exists id, resolve_name d m = Ok id) ->
    resolve_name d name = Raise e ->
    map_names_loop d (before ++ name :: after) acc = Raise e.
Proof.
  induction before as [|m before IH]; intros acc name after e Hb He; simpl.
  - rewrite He. reflexivity.
  - destruct (Hb m (or_introl eq_refl)) as [id ->]. simpl.
    apply IH; [|assumption]. intros m' Hm'. apply Hb. right. assumption.
Qed.

(** C5.  When resolution of a list of names succeeds, the resolved list has
    one entry per name, in the order of the names: its i-th entry is the
    resolution of the i-th name, and every entry is the canonical id of an
    entry of the table. *)
Theorem map_names_order_preserved (d : Dict.t) (names : list str)
    (ids : list (option str)) :
  map_scanned_character_names_to_json_equivalent d names = Ok ids ->
  List.length ids = List.length names /\
  Forall2 (fun name id => resolve_name d name = Ok id) names ids /\
  (forall i name, nth_error names i = Some name ->
     exists id, nth_error ids i = Some id /\ resolve_name d name = Ok id) /\
  Forall (fun id => exists k v, In (k, v) d /\ id = Some v) ids.
Proof.
  intros H. apply map_names_loop_ok in H. destruct H as (ids' & -> & HF).
  simpl. split; [symmetry; apply (Forall2_length HF)|]. split; [exact HF|].
  split.
  - clear - HF. induction HF as [|n id names ids Hn _ IH]; intros i name Hi.
    + destruct i; discriminate.
    + destruct i as [|i]; simpl in *.
      * injection Hi as <-. eauto.
      * apply IH, Hi.
  - clear - HF. induction HF as [|n id names ids Hn _ IH]; constructor.
    + apply (resolve_name_ok_id d n id Hn).
    + exact IH.
Qed.

Lemma map_names_order_preserved_witness :
  map_scanned_character_names_to_json_equivalent example_table
    [lit "Baron"; lit "Scarlet Womon"; lit "Inp"]
  = Ok [Some (lit "baron"); Some (lit "scarlet_woman"); Some (lit "imp")] /\
  List.length [Some (lit "baron"); Some (lit "scarlet_woman");
               Some (lit "imp")] = 3 /\
  resolve_name example_table (lit "Scarlet Womon")
  = Ok (Some (lit "scarlet_woman")).
Proof.
  assert (map_scanned_character_names_to_json_equivalent example_table
            [lit "Baron"; lit "Scarlet Womon"; lit "Inp"]
          = Ok [Some (lit "baron"); Some (lit "scarlet_woman");
                Some (lit "imp")]) as H by (vm_compute; reflexivity).
  split; [exact H|].
  destruct (map_names_order_preserved _ _ _ H) as (Hlen & _ & Hnth & _).
  split; [exact Hlen|].
  destruct (Hnth 1 (lit "Scarlet Womon") eq_refl) as (id & Hid & Hres).
  injection Hid as <-. exact Hres.
Defined.

(** In a list with an unmatched name there is a first one: the names before
    it all resolve. *)
Lemma first_unmatched (d : Dict.t) (names : list str) :
  d <> [] ->
  (exists n, In n names /\ unmatched d n) ->
  exists before n after,
    names = before ++ n :: after /\
    (forall m, In m before ->
       ~ unmatched d m /\ exists id, resolve_name d m = Ok id) /\
    unmatched d n.
Proof.
  intros Hd. induction names as [|m names IH]; intros (n & Hin & Hn).
  - destruct Hin.
  - destruct (resolve_name_cases d m Hd) as [(id & Hid & Hm)|[Hm _]].
    + destruct Hin as [->|Hin]; [contradiction|].
      destruct IH as (before & n' & after & -> & Hb & Hn'); [eauto|].
      exists (m :: before), n', after. split; [reflexivity|].
      split; [|assumption].
      intros m' [<-|Hm']; [eauto | apply Hb, Hm'].
    + exists [], m, names. split; [reflexivity|].
      split; [intros ? []|assumption].
Qed.

(** C2.  Over a non-empty name table, when some name of the list is neither a
    key nor within 3 edits of a key, resolution of the whole list raises the
    error that carries the first such name, and returns no list. *)
Theorem map_names_all_or_nothing (d : Dict.t) (names : list str) :
  d <> [] ->
  (exists n, In n names /\ unmatched d n) ->
  exists before n after,
    names = before ++ n :: after /\
    (forall m, In m before -> ~ unmatched d m) /\
    unmatched d n /\
    map_scanned_character_names_to_json_equivalent d names
    = Raise (RuntimeError (no_match_message n)) /\
    forall ids,
      map_scanned_character_names_to_json_equivalent d names <> Ok ids.
Proof.
  intros Hd Hex.
  destruct (first_unmatched d names Hd Hex)
    as (before & n & after & -> & Hb & Hn).
  assert (map_scanned_character_names_to_json_equivalent d
            (before ++ n :: after)
          = Raise (RuntimeError (no_match_message n))) as E.
  { apply map_names_loop_raise.
    - intros m Hm. apply (Hb m Hm).
    - destruct (resolve_name_cases d n Hd) as [(id & _ & H)|[_ H]];
        [contradiction | exact H]. }
  exists before, n, after. split; [reflexivity|].
  split; [intros m Hm; apply (Hb m Hm)|].
  split; [assumption|]. split; [assumption|].
  intros ids. rewrite E. discriminate.
Qed.

Lemma example_unmatched : unmatched example_table (lit "Zombuul").
Proof.
  split; [reflexivity|].
  intros k [<-|[<-|[<-|[]]]]; vm_compute; lia.
Defined.

(** A roster whose second name is unreadable yields no list, only the error
    that names the unreadable name. *)
Lemma map_names_all_or_nothing_witness :
  example_table <> [] /\
  (exists n, In n [lit "Imp"; lit "Zombuul"; lit "Baron"] /\
             unmatched example_table n) /\
  exists before n after,
    [lit "Imp"; lit "Zombuul"; lit "Baron"] = before ++ n :: after /\
    (forall m, In m before -> ~ unmatched example_table m) /\
    unmatched example_table n /\
    map_scanned_character_names_to_json_equivalent example_table
      [lit "Imp"; lit "Zombuul"; lit "Baron"]
    = Raise (RuntimeError (no_match_message n)) /\
    forall ids,
      map_scanned_character_names_to_json_equivalent example_table
        [lit "Imp"; lit "Zombuul"; lit "Baron"] <> Ok ids.
Proof.
  assert (example_table <> []) as Hd by discriminate.
  assert (exists n, In n [lit "Imp"; lit "Zombuul"; lit "Baron"] /\
                    unmatched example_table n) as Hex.
  { exists (lit "Zombuul"). split; [right; left; reflexivity|].
    exact example_unmatched. }
  split; [exact Hd|]. split; [exact Hex|].
  exact (map_names_all_or_nothing example_table
           [lit "Imp"; lit "Zombuul"; lit "Baron"] Hd Hex).
Defined.

(** C10.  With an empty name table no name is a key, and resolving a
    non-empty list of names raises the [ValueError] of [min] on an empty
    sequence, not the [RuntimeError] that carries the unmatched name. *)
Theorem empty_table_generic_error (name : str) (names : list str) :
  Dict.get [] name = None /\
  map_scanned_character_names_to_json_equivalent [] (name :: names)
  = Raise (ValueError (lit "min() arg is an empty sequence")) /\
  map_scanned_character_names_to_json_equivalent [] (name :: names)
  <> Raise (RuntimeError (no_match_message name)).
Proof.
  split; [reflexivity|].
  assert (map_scanned_character_names_to_json_equivalent [] (name :: names)
          = Raise (ValueError (lit "min() arg is an empty sequence"))) as E
    by reflexivity.
  split; [exact E|]. rewrite E. discriminate.
Qed.

(** ** Floats *)

Module FloatFacts.

Import Float.
Open Scope Z_scope.

Lemma bits_small (m : Z) : Z.abs m < 2 ^ 53 -> bits m - prec <= 0.
Proof.
  intros H. unfold bits, prec.
  destruct (Z.eq_dec (Z.abs m) 0) as [E|E].
  - rewrite E. simpl. lia.
  - assert (0 < Z.abs m) as Hpos by lia.
    apply (Z.log2_lt_pow2 _ 53 Hpos) in H. lia.
Qed.

(** A number of at most 53 bits is a float: rounding keeps it. *)
Lemma round_small (m e : Z) : Z.abs m < 2 ^ 53 -> round m e = mk m e.
Proof.
  intros H. unfold round. apply bits_small in H.
  apply Z.leb_le in H. rewrite H. reflexivity.
Qed.

Lemma of_int_small (n : Z) : Z.abs n < 2 ^ 53 -> of_int n = mk n 0.
Proof. apply round_small. Qed.

(** Halving an int below [2 ^ 53] in floats and truncating is the integer
    quotient by 2 that truncates toward zero. *)
Lemma to_int_mul_half (n : Z) :
  Z.abs n < 2 ^ 53 -> to_int (mul (of_int n) half) = Z.quot n 2.
Proof.
  intros H. rewrite (of_int_small n H). unfold mul, half.
  cbn [mant expo]. rewrite Z.mul_1_r, Z.add_0_l, (round_small n (-1) H).
  reflexivity.
Qed.

(** The mantissa [rne_div] picks is an integer nearest to the ratio. *)
Lemma rne_div_nearest (n d : Z) :
  0 < d -> 2 * Z.abs (rne_div n d * d - n) <= d.
Proof.
  intros Hd. unfold rne_div.
  pose proof (Z.div_mod n d ltac:(lia)) as E.
  pose proof (Z.mod_pos_bound n d Hd) as B.
  assert (n / d * d = n - n mod d) as F by lia.
  assert ((n / d + 1) * d = n - n mod d + d) as G by lia.
  destruct (2 * (n mod d) <? d) eqn:C1; [apply Z.ltb_lt in C1; lia|].
  apply Z.ltb_ge in C1.
  destruct (d <? 2 * (n mod d)) eqn:C2; [apply Z.ltb_lt in C2; lia|].
  apply Z.ltb_ge in C2.
  destruct (Z.even (n / d)); lia.
Qed.

Lemma bits_bounds (m : Z) :
  0 < m -> 2 ^ (bits m - 1) <= m < 2 ^ bits m.
Proof.
  intros H. unfold bits. rewrite Z.abs_eq by lia.
  pose proof (Z.log2_spec m H) as L.
  replace (Z.log2 m + 1 - 1) with (Z.log2 m) by lia.
  replace (Z.log2 m + 1) with (Z.succ (Z.log2 m)) by lia. exact L.
Qed.

(** Rounding a positive number: the new mantissa, scaled back, is within
    half a unit in the last place of the number. *)
Lemma round_nearest (m e : Z) :
  0 < m ->
  exists j m',
    round m e = mk m' (e + j) /\ 0 <= j /\
    2 * Z.abs (m' * 2 ^ j - m) <= 2 ^ j /\
    (j = 0 \/ 2 ^ (j + 52) <= m).
Proof.
  intros Hm. unfold round.
  destruct (bits m - prec <=? 0) eqn:C.
  - exists 0, m. rewrite Z.add_0_r. simpl (2 ^ 0).
    repeat split; try lia.
  - apply Z.leb_gt in C. set (j := bits m - prec) in *.
    exists j, (rne_div m (2 ^ j)).
    assert (0 < 2 ^ j) as Hp by (apply Z.pow_pos_nonneg; lia).
    repeat split; try lia.
    + apply rne_div_nearest, Hp.
    + right. pose proof (bits_bounds m Hm) as [L _].
      replace (bits m - 1) with (j + 52) in L by (unfold j, prec; lia).
      exact L.
Qed.

(** The quotient of two positive ints below [2 ^ 31]: the exponent is
    negative, the scaled quotient has 53 bits, and the mantissa is the
    integer nearest to it. *)
Lemma round_ratio_nearest (w h : Z) :
  0 < w < 2 ^ 31 -> 0 < h < 2 ^ 31 ->
  exists k m,
    round_ratio w h = mk m (- k) /\ 0 < k /\
    2 ^ 52 * h <= w * 2 ^ k < 2 ^ 53 * h /\
    2 * Z.abs (m * h - w * 2 ^ k) <= h.
Proof.
  intros Hw Hh. unfold round_ratio.
  assert ((w =? 0) = false) as -> by (apply Z.eqb_neq; lia).
  rewrite Z.abs_eq by lia.
  pose proof (Z.log2_spec w ltac:(lia)) as Lw.
  pose proof (Z.log2_spec h ltac:(lia)) as Lh.
  pose proof (Z.log2_nonneg w) as Nw.
  pose proof (Z.log2_nonneg h) as Nh.
  assert (Z.log2 w < 31) as Bw by (apply Z.log2_lt_pow2; lia).
  assert (Z.log2 h < 31) as Bh by (apply Z.log2_lt_pow2; lia).
  set (lw := Z.log2 w) in *. set (lh := Z.log2 h) in *.
  unfold prec. set (k0 := 53 - 1 - (lw - lh)).
  assert (0 < k0) as Hk0 by (unfold k0; lia).
  assert (2 ^ k0 * 2 ^ lw = 2 ^ 52 * 2 ^ lh) as Hpow.
  { rewrite <- !Z.pow_add_r by lia. f_equal. unfold k0. lia. }
  assert (0 < 2 ^ k0) as Pk by (apply Z.pow_pos_nonneg; lia).
  assert (0 < 2 ^ lw) as Plw by (apply Z.pow_pos_nonneg; lia).
  assert (0 < 2 ^ lh) as Plh by (apply Z.pow_pos_nonneg; lia).
  rewrite !Z.pow_succ_r in Lw, Lh by lia.
  rewrite (Z.max_l k0 0), (Z.max_r (- k0) 0) by lia.
  rewrite Z.pow_0_r, Z.mul_1_r.
  destruct (w * 2 ^ k0 <? h * 2 ^ (53 - 1)) eqn:C.
  - apply Z.ltb_lt in C. change (53 - 1) with 52 in C.
    exists (k0 + 1).
    rewrite (Z.max_l (k0 + 1) 0), (Z.max_r (- (k0 + 1)) 0) by lia.
    rewrite Z.pow_0_r, Z.mul_1_r.
    eexists. split; [reflexivity|]. split; [lia|].
    split; [|apply rne_div_nearest; lia].
    assert (2 ^ (k0 + 1) = 2 * 2 ^ k0) as ->
      by (rewrite Z.pow_add_r, Z.pow_1_r by lia; lia).
    change (2 ^ 53) with (2 * 2 ^ 52). nia.
  - apply Z.ltb_ge in C. change (53 - 1) with 52 in C.
    exists k0.
    rewrite (Z.max_l k0 0), (Z.max_r (- k0) 0) by lia.
    rewrite Z.pow_0_r, Z.mul_1_r.
    eexists. split; [reflexivity|]. split; [lia|].
    split; [|apply rne_div_nearest; lia].
    change (2 ^ 53) with (2 * 2 ^ 52). nia.
Qed.

(** The product of the height with the rounded ratio, rounded and truncated,
    against the exact quotient. *)
Lemma to_int_mul_ratio (h w H : Z) :
  0 < w < 2 ^ 31 -> 0 < h < 2 ^ 31 -> 0 < H -> H * w < 2 ^ 51 ->
  let r := to_int (mul (of_int H) (round_ratio w h)) in
  let q := H * w / h in
  ((H * w) mod h <> 0 -> r = q) /\
  ((H * w) mod h = 0 -> r = q \/ r = q - 1).
Proof.
  intros Hw Hh HH HP.
  destruct (round_ratio_nearest w h Hw Hh) as (k & m1 & -> & Hk & Hs & Hn1).
  assert (0 < 2 ^ k) as PK by (apply Z.pow_pos_nonneg; lia).
  change (2 ^ 51) with 2251799813685248 in HP.
  change (2 ^ 52) with 4503599627370496 in Hs.
  change (2 ^ 53) with 9007199254740992 in Hs.
  assert (4503599627370496 <= m1 <= 9007199254740992) as Hm1.
  { split.
    - destruct (Z.le_gt_cases 4503599627370496 m1) as [|Hlt];
        [assumption|exfalso].
      assert (m1 * h <= (4503599627370496 - 1) * h)
        by (apply Z.mul_le_mono_nonneg_r; lia).
      lia.
    - destruct (Z.le_gt_cases m1 9007199254740992) as [|Hgt];
        [assumption|exfalso].
      assert ((9007199254740992 + 1) * h <= m1 * h)
        by (apply Z.mul_le_mono_nonneg_r; lia).
      lia. }
  assert (H * 1 <= H * w) as HHw by (apply Z.mul_le_mono_nonneg_l; lia).
  assert (of_int H = mk H 0) as ->.
  { apply FloatFacts.of_int_small.
    change (2 ^ 53) with 9007199254740992. lia. }
  unfold mul. cbn [mant expo].
  assert (0 < H * m1) as Hpos by (apply Z.mul_pos_pos; lia).
  destruct (round_nearest (H * m1) (0 + - k) Hpos)
    as (j & m2 & -> & Hj & Hn2 & Hb).
  assert (0 < 2 ^ j) as PJ by (apply Z.pow_pos_nonneg; lia).
  assert (H * m1 <= H * 9007199254740992) as Hm1'
    by (apply Z.mul_le_mono_nonneg_l; lia).
  assert (2 ^ j <= 2 * H) as HJ.
  { destruct Hb as [->|Hb]; [change (2 ^ 0) with 1; lia|].
    rewrite Z.pow_add_r in Hb by lia.
    change (2 ^ 52) with 4503599627370496 in Hb. lia. }
  assert (j < k) as Hjk.
  { destruct (Z.lt_ge_cases j k) as [|Hge]; [assumption|exfalso].
    pose proof (Z.pow_le_mono_r 2 k j ltac:(lia) Hge).
    assert (w * 2 ^ k <= w * (2 * H))
      by (apply Z.mul_le_mono_nonneg_l; lia).
    lia. }
  set (E := k - j).
  assert (2 ^ k = 2 ^ E * 2 ^ j) as HK.
  { rewrite <- Z.pow_add_r by (unfold E; lia). f_equal. unfold E. lia. }
  assert (0 < 2 ^ E) as PE by (apply Z.pow_pos_nonneg; unfold E; lia).
  unfold to_int. cbn [mant expo].
  assert ((0 <=? 0 + - k + j) = false) as -> by (apply Z.leb_gt; lia).
  replace (- (0 + - k + j)) with E by (unfold E; lia).
  set (J := 2 ^ j) in *. set (EE := 2 ^ E) in *. set (K := 2 ^ k) in *.
  assert (0 <= m2) as Hm2.
  { destruct (Z.le_gt_cases 0 m2) as [|Hneg]; [assumption|exfalso].
    assert (m2 * J <= -1 * J) by (apply Z.mul_le_mono_nonneg_r; lia).
    lia. }
  rewrite Z.quot_div_nonneg by lia.
  set (X := m2 * h - H * w * EE).
  assert (Z.abs X < EE) as HX.
  { assert (J * X = h * (m2 * J - H * m1) + H * (m1 * h - w * K)) as EJ
      by (unfold X; rewrite HK; ring).
    set (a := Z.abs (m2 * J - H * m1)) in *.
    set (b := Z.abs (m1 * h - w * K)) in *.
    assert (J * Z.abs X <= h * a + H * b) as B0.
    { rewrite <- (Z.abs_eq J) at 1 by lia. rewrite <- Z.abs_mul, EJ.
      pose proof (Z.abs_triangle (h * (m2 * J - H * m1))
                                 (H * (m1 * h - w * K))) as T.
      rewrite !Z.abs_mul, (Z.abs_eq h), (Z.abs_eq H) in T by lia.
      exact T. }
    assert (h * (2 * a) <= h * J) by (apply Z.mul_le_mono_nonneg_l; lia).
    assert (H * (2 * b) <= H * h) by (apply Z.mul_le_mono_nonneg_l; lia).
    assert (h * J <= h * (2 * H)) by (apply Z.mul_le_mono_nonneg_l; lia).
    destruct (Z.lt_ge_cases (Z.abs X) EE) as [|Hge]; [assumption|exfalso].
    assert (J * EE <= J * Z.abs X) by (apply Z.mul_le_mono_nonneg_l; lia).
    assert (2 * K <= 3 * (H * h)) as B2 by (rewrite HK; lia).
    assert (2 * K * w <= 3 * (H * h) * w)
      by (apply Z.mul_le_mono_nonneg_r; lia).
    assert (H * w * h <= (2251799813685248 - 1) * h)
      by (apply Z.mul_le_mono_nonneg_r; lia).
    lia. }
  pose proof (Z.div_mod (H * w) h ltac:(lia)) as D.
  pose proof (Z.mod_pos_bound (H * w) h ltac:(lia)) as B.
  set (q := H * w / h) in *. set (rho := (H * w) mod h) in *.
  assert (m2 * h = X + (h * q + rho) * EE) as EX
    by (unfold X; rewrite <- D; ring).
  assert (0 <= rho * EE) as R0 by (apply Z.mul_nonneg_nonneg; lia).
  assert ((rho + 1) * EE <= h * EE) as R1
    by (apply Z.mul_le_mono_nonneg_r; lia).
  assert (1 * EE <= h * EE) as R2 by (apply Z.mul_le_mono_nonneg_r; lia).
  assert (m2 / EE <= q) as Hup.
  { assert (m2 / EE < q + 1); [|lia].
    apply Z.div_lt_upper_bound; [lia|].
    apply (Z.mul_lt_mono_pos_r h); lia. }
  split.
  - intros Hrho. assert (q <= m2 / EE); [|lia].
    apply Z.div_le_lower_bound; [lia|].
    assert (1 * EE <= rho * EE) by (apply Z.mul_le_mono_nonneg_r; lia).
    apply (Z.mul_le_mono_pos_r _ _ h); lia.
  - intros Hrho. assert (q - 1 <= m2 / EE); [|lia].
    apply Z.div_le_lower_bound; [lia|].
    apply (Z.mul_le_mono_pos_r _ _ h); [lia|].
    rewrite Hrho in EX. lia.
Qed.

End FloatFacts.

(** ** The region extractor *)

(** Below [2 ^ 53] the margin is half the excess width, truncated toward
    zero. *)
Lemma left_margin_size_quot (width : Z) :
  (Z.abs (width - A4_WIDTH_PIXELS) < 2 ^ 53)%Z ->
  left_margin_size width = truncate (width - A4_WIDTH_PIXELS) 2.
Proof. apply FloatFacts.to_int_mul_half. Qed.

Lemma character_names_bounds_eq (width : Z) :
  character_names_bounds width
  = (140, 2925, 180 + left_margin_size width,
     414 + left_margin_size width)%Z.
Proof. reflexivity. Qed.

(** X10.  The crop of a well-shaped page is well shaped. It has the 234
    columns of the name column when the page is at least 1739 pixels wide, and
    no column on a narrower page, where the left bound is negative and counts
    from the right edge. *)
Lemma crop_columns (A : Type) (script_image crop : ndarray A) :
  (1500 <= width script_image < 2 ^ 53)%Z ->
  well_shaped script_image ->
  crop_to_character_names script_image = Ok crop ->
  well_shaped crop /\
  width crop = if (width script_image <=? 1738)%Z then 0%Z else 234%Z.
Proof.
  intros Hw Hs H. unfold crop_to_character_names in H.
  assert ((width script_image <? 1500)%Z = false) as E
    by (apply Z.ltb_ge; lia).
  rewrite E, character_names_bounds_eq in H.
  assert (crop = slice2 script_image 140 2925
                   (180 + left_margin_size (width script_image))
                   (414 + left_margin_size (width script_image))) as ->
    by congruence.
  clear H. split; [apply slice2_well_shaped, Hs|].
  rewrite width_slice2.
  rewrite left_margin_size_quot
    by (unfold A4_WIDTH_PIXELS;
        change (2 ^ 53)%Z with 9007199254740992%Z in *; lia).
  unfold truncate, A4_WIDTH_PIXELS.
  pose proof (Z.quot_rem' (width script_image - 2100) 2) as Q.
  pose proof (Z.rem_bound_abs (width script_image - 2100) 2) as B.
  change (Z.abs 2) with 2%Z in B.
  assert (Z.rem (width script_image - 2100) 2 <= 0
          \/ 0 <= width script_image - 2100)%Z as S.
  { destruct (Z.le_gt_cases 0 (width script_image - 2100)) as [|L];
      [right; assumption|left].
    apply Z.rem_nonpos; lia. }
  assert (0 <= width script_image - 2100
          -> 0 <= Z.rem (width script_image - 2100) 2)%Z as S'
    by (intros; apply Z.rem_nonneg; lia).
  set (m := Z.quot (width script_image - 2100) 2) in *.
  unfold slice_length, slice_index.
  destruct (width script_image <=? 1738)%Z eqn:C;
    [apply Z.leb_le in C | apply Z.leb_gt in C];
    destruct (414 + m <? 0)%Z eqn:C1; destruct (180 + m <? 0)%Z eqn:C2;
    try apply Z.ltb_lt in C1; try apply Z.ltb_ge in C1;
    try apply Z.ltb_lt in C2; try apply Z.ltb_ge in C2; lia.
Qed.

(** C7.  The character-column crop raises its layout error exactly when the
    page is narrower than 1500 pixels; for every page of width 1500 or more
    it returns a crop. *)
Theorem crop_layout_guard (A : Type) (script_image : ndarray A) :
  ((width script_image < 1500)%Z ->
   crop_to_character_names script_image
   = Raise (RuntimeError (narrow_message (width script_image)))) /\
  ((1500 <= width script_image)%Z ->
   exists crop, crop_to_character_names script_image = Ok crop) /\
  ((exists e, crop_to_character_names script_image = Raise e)
   <-> (width script_image < 1500)%Z).
Proof.
  unfold crop_to_character_names.
  destruct (width script_image <? 1500)%Z eqn:E.
  - apply Z.ltb_lt in E. split; [reflexivity|]. split; [lia|].
    split; [intros _; assumption | intros _; eauto].
  - apply Z.ltb_ge in E. split; [lia|].
    destruct (character_names_bounds (width script_image))
      as [[[y_min y_max] x_min] x_max].
    split; [eauto|].
    split; [intros [e H]; discriminate | lia].
Qed.

(** A page one pixel too narrow is refused with its width in the message; a
    page of exactly 1500 pixels is cropped. *)
Lemma crop_layout_guard_witness :
  crop_to_character_names (mk_ndarray 1499 [[0%Z]])
  = Raise (RuntimeError
             (lit "Image is narrower than expected. width = 1499.")) /\
  exists crop, crop_to_character_names (mk_ndarray 1500 [[0%Z]]) = Ok crop.
Proof.
  split.
  - destruct (crop_layout_guard Z (mk_ndarray 1499 [[0%Z]])) as (H & _ & _).
    rewrite H; [reflexivity | simpl; lia].
  - destruct (crop_layout_guard Z (mk_ndarray 1500 [[0%Z]])) as (_ & H & _).
    apply H. simpl. lia.
Defined.

(** C8, as the specification words it, fails: for a page of width 2103 the
    excess over the reference width is 3 pixels, half of it is 1.5, and the
    margin is 1, where rounding gives 2 whichever way ties go (to even, up or
    away from zero). *)
Lemma margin_not_rounded :
  (1500 <= 2103)%Z /\
  left_margin_size 2103 = 1%Z /\
  left_margin_size 2103 <> round_half_even (2103 - A4_WIDTH_PIXELS) 2 /\
  left_margin_size 2103 <> round_half_up (2103 - A4_WIDTH_PIXELS) 2 /\
  left_margin_size 2103 <> round_half_away (2103 - A4_WIDTH_PIXELS) 2.
Proof. vm_compute. repeat split; discriminate. Qed.

(** C8, amended.  For every accepted page width the margin is half the excess
    over the reference width 2100, truncated toward zero (so an integer
    nearest to that half, ties going toward zero), and the crop runs from
    [180 + margin] to [414 + margin] horizontally and from 140 to 2925
    vertically. *)
Theorem margin_correction (A : Type) (script_image : ndarray A) :
  (1500 <= width script_image < 2 ^ 53)%Z ->
  let margin := left_margin_size (width script_image) in
  margin = truncate (width script_image - 2100) 2 /\
  nearest_integer (width script_image - 2100) 2 margin /\
  character_names_bounds (width script_image)
  = (140, 2925, 180 + margin, 414 + margin)%Z /\
  crop_to_character_names script_image
  = Ok (slice2 script_image 140 2925 (180 + margin) (414 + margin)).
Proof.
  intros Hw margin.
  assert (margin = truncate (width script_image - 2100) 2) as Hm.
  { apply left_margin_size_quot. unfold A4_WIDTH_PIXELS.
    change (2 ^ 53)%Z with 9007199254740992%Z in *. lia. }
  split; [exact Hm|]. split.
  - rewrite Hm. unfold nearest_integer, truncate.
    pose proof (Z.quot_rem' (width script_image - 2100) 2) as E.
    pose proof (Z.rem_bound_abs (width script_image - 2100) 2) as B.
    change (Z.abs 2) with 2%Z in B. lia.
  - split; [reflexivity|].
    unfold crop_to_character_names.
    assert ((width script_image <? 1500)%Z = false) as ->
      by (apply Z.ltb_ge; lia).
    reflexivity.
Qed.

(** A page of width 2400 has margin 150, and both x-bounds move by 150. *)
Lemma margin_correction_witness :
  (1500 <= 2400 < 2 ^ 53)%Z /\
  left_margin_size 2400 = 150%Z /\
  character_names_bounds 2400 = (140, 2925, 180 + 150, 414 + 150)%Z /\
  crop_to_character_names (mk_ndarray 2400 [[0%Z]])
  = Ok (slice2 (mk_ndarray 2400 [[0%Z]]) 140 2925 (180 + 150) (414 + 150)).
Proof.
  assert (1500 <= 2400 < 2 ^ 53)%Z as Hw by (vm_compute; split; congruence).
  split; [exact Hw|].
  destruct (margin_correction Z (mk_ndarray 2400 [[0%Z]]) Hw)
    as (_ & _ & Hb & Hc).
  split; [reflexivity|]. split; [exact Hb | exact Hc].
Defined.

(** ** The chroma filter *)

Section RemoveColorFacts.

Variable gray : pixel -> Z.

(** The mask in plain arithmetic: each difference is taken modulo 256. *)
Lemma non_grey_mask_wraps (threshold : Z) (p : pixel) :
  non_grey_mask threshold p = true <->
  (threshold < (ch0 p - ch1 p) mod 256 \/
   threshold < (ch0 p - ch2 p) mod 256 \/
   threshold < (ch1 p - ch2 p) mod 256)%Z.
Proof.
  unfold non_grey_mask, uint8_abs, uint8_sub.
  rewrite !orb_true_iff, !Z.gtb_lt. tauto.
Qed.

(** Where the channels do not increase with their index no subtraction
    wraps, and the filter does what its contract says. *)
Lemma remove_color_pixel_descending (threshold : Z) (p : pixel) :
  pixel_ok p -> (ch2 p <= ch1 p <= ch0 p)%Z ->
  remove_color_pixel gray threshold p =
  if ((Z.abs (ch0 p - ch1 p) <=? threshold)
      && (Z.abs (ch0 p - ch2 p) <=? threshold)
      && (Z.abs (ch1 p - ch2 p) <=? threshold))%Z
  then gray p else 255%Z.
Proof.
  intros (H0 & H1 & H2) Hd. unfold uint8 in *.
  unfold remove_color_pixel, non_grey_mask, uint8_abs, uint8_sub.
  rewrite !Z.mod_small by lia.
  rewrite !Z.abs_eq by lia.
  rewrite !Z.gtb_ltb, !Z.ltb_antisym.
  destruct (ch0 p - ch1 p <=? threshold)%Z,
           (ch0 p - ch2 p <=? threshold)%Z,
           (ch1 p - ch2 p <=? threshold)%Z; reflexivity.
Qed.

End RemoveColorFacts.

(** C3 at a failing pixel.  The pixel (100, 100, 101) is all but grey: its
    channels differ by at most 1, far within the threshold 30, and its
    grayscale value is 100; the filter makes it white, because 100 - 101
    wraps around to 255 in [uint8].  The pixel (0, 255, 255) is strongly
    coloured, two of its channel pairs differ by 255, and the filter keeps
    its grayscale value 226, because 0 - 255 wraps around to 1. *)
Theorem remove_color_wraps_around :
  let near_grey := mk_pixel 100 100 101 in
  let coloured := mk_pixel 0 255 255 in
  (pixel_ok near_grey /\
   (Z.abs (ch0 near_grey - ch1 near_grey) <= default_threshold)%Z /\
   (Z.abs (ch0 near_grey - ch2 near_grey) <= default_threshold)%Z /\
   (Z.abs (ch1 near_grey - ch2 near_grey) <= default_threshold)%Z /\
   bgr2gray near_grey = 100%Z /\
   remove_color_pixel bgr2gray default_threshold near_grey = 255%Z) /\
  (pixel_ok coloured /\
   (default_threshold < Z.abs (ch0 coloured - ch1 coloured))%Z /\
   bgr2gray coloured = 226%Z /\
   remove_color_pixel bgr2gray default_threshold coloured = 226%Z) /\
  remove_color bgr2gray (mk_ndarray 2 [[near_grey; coloured]])
               default_threshold
  = mk_ndarray 2 [[255; 226]]%Z.
Proof.
  vm_compute. repeat split; congruence.
Qed.

(** ** The metadata parser *)

Lemma script_meta_data_two_parts (raw before rest : str) :
  partition (lit "by") (strip raw) = Some (before, rest) ->
  script_meta_data_of_title raw = (strip before, strip rest).
Proof.
  intros H. unfold script_meta_data_of_title, split1. rewrite H. reflexivity.
Qed.

Lemma script_meta_data_one_part (raw : str) :
  partition (lit "by") (strip raw) = None ->
  script_meta_data_of_title raw = (raw, []).
Proof.
  intros H. unfold script_meta_data_of_title, split1. rewrite H.
  destruct (strip raw) as [|? [|? [|? ?]]]; reflexivity.
Qed.

(** The two examples of the specification. *)
Lemma script_meta_data_examples :
  script_meta_data_of_title (lit "Trouble Brewing by John Doe")
  = (lit "Trouble Brewing", lit "John Doe") /\
  script_meta_data_of_title (lit "Trouble Brewing")
  = (lit "Trouble Brewing", []).
Proof. split; vm_compute; reflexivity. Qed.

(** C4 at a failing input.  For a title without [by] that ends in a line
    feed, as recognised text does, the script name is the text as it came,
    line feed included, not the trimmed text. *)
Theorem script_meta_data_untrimmed :
  let raw := (lit "Trouble Brewing" ++ [LF])%list in
  strip raw = lit "Trouble Brewing" /\
  split1 (lit "by") (strip raw) = [lit "Trouble Brewing"] /\
  script_meta_data_of_title raw = (raw, []) /\
  script_meta_data_of_title raw <> (strip raw, []).
Proof.
  vm_compute. repeat split; congruence.
Qed.

(** ** The document assembler *)

Module AssemblerFacts.

Lemma replace_empty (old : char) (s : str) :
  replace old [] s = filter (fun c => negb (char_eqb c old)) s.
Proof.
  unfold replace. induction s as [|c s IH]; simpl; [reflexivity|].
  destruct (char_eqb c old); simpl; rewrite IH; reflexivity.
Qed.

(** The two [replace] calls remove the line feeds and carriage returns. *)
Lemma replace_line_breaks (s : str) :
  replace CR [] (replace LF [] s) = without_line_breaks s.
Proof.
  rewrite !replace_empty. unfold without_line_breaks.
  induction s as [|c s IH]; simpl; [reflexivity|].
  destruct (char_eqb c LF); simpl; [exact IH|].
  destruct (char_eqb c CR); simpl; rewrite IH; reflexivity.
Qed.

Lemma without_line_breaks_app (s t : str) :
  without_line_breaks (s ++ t)
  = without_line_breaks s ++ without_line_breaks t.
Proof. apply filter_app. Qed.

Lemma without_line_breaks_free (s : str) :
  ~ In LF (without_line_breaks s) /\ ~ In CR (without_line_breaks s).
Proof.
  unfold without_line_breaks.
  split; intros H; apply filter_In in H; destruct H as [_ H];
    rewrite char_eqb_refl in H; simpl in H;
    try rewrite andb_false_r in H; discriminate.
Qed.

Lemma append_characters_concat (characters : list (option str)) :
  forall json,
    append_characters json characters
    = json ++ List.concat (map (fun c => element (format c)) characters).
Proof.
  induction characters as [|c characters IH]; intros json;
    cbn [append_characters map List.concat].
  - rewrite app_nil_r. reflexivity.
  - rewrite IH. unfold element. rewrite <- !app_assoc. reflexivity.
Qed.

Lemma without_line_breaks_elements (names : list str) :
  without_line_breaks (List.concat (map element names))
  = List.concat (map (fun n => element (without_line_breaks n)) names).
Proof.
  induction names as [|n names IH]; cbn [map List.concat];
    [reflexivity|].
  rewrite without_line_breaks_app, IH. unfold element.
  rewrite !without_line_breaks_app. reflexivity.
Qed.

(** The text of the document: the fixed parts with the fields between
    them, the fields without their line breaks. *)
Lemma combine_to_json_string_text (characters : list (option str))
    (script_name author : str) :
  combine_to_json_string characters script_name author
  = litq "[{'id':'_meta','author':'" ++ without_line_breaks author
    ++ litq "','name':'" ++ without_line_breaks script_name ++ litq "'}"
    ++ List.concat (map (fun c => element (without_line_breaks (format c)))
                   characters)
    ++ lit "]".
Proof.
  unfold combine_to_json_string.
  rewrite replace_line_breaks, append_characters_concat.
  rewrite <- (map_map format element).
  rewrite !without_line_breaks_app, without_line_breaks_elements.
  rewrite map_map, <- !app_assoc. reflexivity.
Qed.

(** *** Reading the document back *)

Lemma without_line_breaks_plain (s : str) :
  plain_but_line_breaks s -> all_plain (without_line_breaks s).
Proof.
  unfold plain_but_line_breaks, all_plain, without_line_breaks.
  induction 1 as [|c s Hc _ IH]; simpl; [constructor|].
  destruct Hc as [->|[->|Hc]]; simpl; try exact IH.
  destruct (char_eqb c LF) eqn:E1; simpl; [exact IH|].
  destruct (char_eqb c CR) eqn:E2; simpl; [exact IH|].
  constructor; assumption.
Qed.

(** A string of plain characters followed by a quote reads as itself. *)
Lemma json_string_tail_plain (v rest : str) :
  all_plain v -> json_string_tail (v ++ quote :: rest) = Some (v, rest).
Proof.
  induction 1 as [|c v Hc _ IH]; [reflexivity|].
  change ((c :: v) ++ quote :: rest) with (c :: (v ++ quote :: rest)).
  cbn [json_string_tail]. rewrite IH.
  unfold plain in Hc. apply andb_true_iff in Hc. destruct Hc as [Hc H92].
  apply andb_true_iff in Hc. destruct Hc as [H32 H34].
  apply negb_true_iff in H34, H92. apply N.leb_le in H32.
  unfold char_eqb, quote, backslash. rewrite H34, H92.
  assert ((c <? 32)%N = false) as -> by (apply N.ltb_ge; assumption).
  reflexivity.
Qed.




End AssemblerFacts.

Import AssemblerFacts.




(** ** The geometric normaliser *)

(** The float model agrees with the Standard Library's IEEE 754
    specification of binary64 on the operations of the normaliser. *)
Example float_model_agrees :
  let f n := binary_normalize 53 1024 n 0 false in
  let agree x y :=
    match Float.of_spec_float y with
    | Some y' => Float.same_value x y'
    | None => false
    end in
  forallb (fun '(w, h) =>
             agree (Float.round_ratio w h) (SFdiv 53 1024 (f w) (f h))
             && agree (Float.mul (Float.of_int A4_HEIGHT_PIXELS)
                                 (Float.round_ratio w h))
                      (SFmul 53 1024 (f A4_HEIGHT_PIXELS)
                             (SFdiv 53 1024 (f w) (f h))))
          [(7, 8); (23, 5); (2100, 2970); (1, 3); (1, 5000); (1920, 1080);
           (4032, 3024); (2147483647, 1); (1, 2147483647)]%Z
  = true.
Proof. vm_compute. reflexivity. Qed.

(** C9, as the specification words it, fails: for an image 7 pixels wide and
    8 high the width asked for is 2598, where 2970 * 7 / 8 = 2598.75 rounds
    to 2599; 2598 is no integer nearest to it. *)
Lemma normalize_height_not_rounded :
  normalize_height_size 8 7 A4_HEIGHT_PIXELS = Ok (2970, 2598)%Z /\
  ~ nearest_integer (A4_HEIGHT_PIXELS * 7) 8 2598 /\
  round_half_even (A4_HEIGHT_PIXELS * 7) 8 = 2599%Z /\
  round_half_up (A4_HEIGHT_PIXELS * 7) 8 = 2599%Z /\
  round_half_away (A4_HEIGHT_PIXELS * 7) 8 = 2599%Z.
Proof.
  split; [vm_compute; reflexivity|].
  split; [unfold nearest_integer, A4_HEIGHT_PIXELS; lia|].
  repeat split; vm_compute; reflexivity.
Qed.

(** Where the height divides [2970 * w], both outcomes occur: the exact
    quotient, and one less. *)
Example normalize_height_exact_quotients :
  normalize_height_size 2970 2100 A4_HEIGHT_PIXELS = Ok (2970, 2100)%Z /\
  (A4_HEIGHT_PIXELS * 23 / 5 = 13662)%Z /\
  normalize_height_size 5 23 A4_HEIGHT_PIXELS = Ok (2970, 13661)%Z.
Proof. vm_compute. repeat split; reflexivity. Qed.

(** C9, amended.  For every image of positive width [w] and height [h]
    (below [2 ^ 31], as the dimensions of an OpenCV image are) the size
    computation raises nothing and asks [cv2.resize] for the fixed target
    height 2970 and for the width [int(2970 * (w / h))], the float product
    truncated, not rounded: the integer part of [2970 * w / h] when [h] does
    not divide [2970 * w], and that quotient or one less when it does. *)
Theorem normalize_height_truncates
    (resize : color_image -> Z -> Z -> result color_image)
    (image : color_image) :
  let h := Z.of_nat (List.length (rows image)) in
  let w := width image in
  (0 < h < 2 ^ 31)%Z -> (0 < w < 2 ^ 31)%Z ->
  exists w_norm,
    normalize_height_size h w A4_HEIGHT_PIXELS
    = Ok (A4_HEIGHT_PIXELS, w_norm) /\
    normalize_height resize image A4_HEIGHT_PIXELS
    = resize image w_norm A4_HEIGHT_PIXELS /\
    (((A4_HEIGHT_PIXELS * w) mod h <> 0)%Z ->
     w_norm = truncate (A4_HEIGHT_PIXELS * w) h) /\
    (((A4_HEIGHT_PIXELS * w) mod h = 0)%Z ->
     w_norm = (A4_HEIGHT_PIXELS * w / h)%Z \/
     w_norm = (A4_HEIGHT_PIXELS * w / h - 1)%Z).
Proof.
  intros h w Hh Hw.
  exists (Float.to_int (Float.mul (Float.of_int A4_HEIGHT_PIXELS)
                                  (Float.round_ratio w h))).
  assert (normalize_height_size h w A4_HEIGHT_PIXELS
          = Ok (A4_HEIGHT_PIXELS,
                Float.to_int (Float.mul (Float.of_int A4_HEIGHT_PIXELS)
                                        (Float.round_ratio w h)))) as E.
  { unfold normalize_height_size, Float.true_divide.
    assert ((h =? 0)%Z = false) as -> by (apply Z.eqb_neq; lia).
    assert ((h <? 0)%Z = false) as -> by (apply Z.ltb_ge; lia).
    reflexivity. }
  split; [exact E|]. split.
  - unfold normalize_height, shape. fold h. fold w. rewrite E. reflexivity.
  - assert (A4_HEIGHT_PIXELS * w < 2 ^ 51)%Z as HP.
    { unfold A4_HEIGHT_PIXELS.
      change (2 ^ 31)%Z with 2147483648%Z in Hw.
      change (2 ^ 51)%Z with 2251799813685248%Z. lia. }
    destruct (FloatFacts.to_int_mul_ratio h w A4_HEIGHT_PIXELS Hw Hh
                ltac:(unfold A4_HEIGHT_PIXELS; lia) HP) as [H1 H2].
    split; [|exact H2].
    intros Hmod. unfold truncate.
    rewrite Z.quot_div_nonneg by (unfold A4_HEIGHT_PIXELS; lia).
    apply H1, Hmod.
Qed.

(** A scanned page of 3000 by 4000 pixels is resized to 2227 by 2970, the
    integer part of 2227.5. *)
Lemma normalize_height_truncates_witness :
  (0 < 4000 < 2 ^ 31)%Z /\ (0 < 3000 < 2 ^ 31)%Z /\
  normalize_height_size 4000 3000 A4_HEIGHT_PIXELS = Ok (2970, 2227)%Z.
Proof.
  assert (0 < 4000 < 2 ^ 31)%Z as Hh by (vm_compute; split; congruence).
  assert (0 < 3000 < 2 ^ 31)%Z as Hw by (vm_compute; split; congruence).
  split; [exact Hh|]. split; [exact Hw|].
  destruct (normalize_height_truncates
              (fun image _ _ => Ok image)
              (mk_ndarray 3000 (repeat [] 4000)) Hh Hw)
    as (w_norm & E & _ & Ht & _).
  change (Z.of_nat (List.length (rows (mk_ndarray 3000 (repeat [] 4000)))))
    with 4000%Z in E, Ht.
  change (width (mk_ndarray 3000 (repeat [] 4000))) with 3000%Z in E, Ht.
  rewrite E, Ht; [vm_compute; reflexivity | vm_compute; congruence].
Defined.

Section ResizeOfEmptySize.

(** [cv2.resize(image, (w, h))], which refuses a size without columns. *)
Variable resize : color_image -> Z -> Z -> result color_image.

Hypothesis resize_empty :
  forall image w h,
    (w <= 0)%Z -> exists msg, resize image w h = Raise (cv2_error msg).

(** An image so narrow for its height that the truncated width is 0 is
    refused by the resize, though its dimensions are positive. *)
Lemma normalize_height_zero_width (image : color_image) :
  shape image = (5000, 1)%Z ->
  normalize_height_size 5000 1 A4_HEIGHT_PIXELS = Ok (2970, 0)%Z /\
  exists msg,
    normalize_height resize image A4_HEIGHT_PIXELS = Raise (cv2_error msg).
Proof.
  intros Hs.
  assert (normalize_height_size 5000 1 A4_HEIGHT_PIXELS = Ok (2970, 0)%Z)
    as E by (vm_compute; reflexivity).
  split; [exact E|].
  unfold normalize_height. rewrite Hs, E. cbn [bind].
  apply resize_empty. lia.
Qed.

End ResizeOfEmptySize.

(** ** Text *)

Module TextFacts.

Lemma lstrip_decompose (s : str) :
  exists ws, s = ws ++ lstrip s /\ blank ws.
Proof.
  induction s as [|c s (ws & E & B)];
    [exists []; split; [reflexivity|constructor]|].
  simpl. destruct (is_space c) eqn:C.
  - exists (c :: ws). split; [simpl; congruence|constructor; assumption].
  - exists []. split; [reflexivity|constructor].
Qed.

Lemma lstrip_starts_clean (s : str) : lstrip s = [] \/ starts_clean (lstrip s).
Proof.
  induction s as [|c s IH]; [left; reflexivity|].
  simpl. destruct (is_space c) eqn:C; [exact IH|right; exact C].
Qed.

Lemma lstrip_clean (s : str) : starts_clean s -> lstrip s = s.
Proof. destruct s as [|c s]; simpl; [intros []|intros ->; reflexivity]. Qed.

Lemma lstrip_blank (s : str) : blank s -> lstrip s = [].
Proof.
  induction 1 as [|c s C _ IH]; [reflexivity|]. simpl. rewrite C. exact IH.
Qed.

Lemma lstrip_blank_app (ws s : str) : blank ws -> lstrip (ws ++ s) = lstrip s.
Proof.
  induction 1 as [|c ws C _ IH]; [reflexivity|]. simpl. rewrite C. exact IH.
Qed.

Lemma rstrip_decompose (s : str) :
  exists ws, s = rstrip s ++ ws /\ blank ws.
Proof.
  unfold rstrip. destruct (lstrip_decompose (rev s)) as (ws & E & B).
  exists (rev ws). split.
  - rewrite <- rev_app_distr, <- E, rev_involutive. reflexivity.
  - unfold blank in *. apply Forall_rev. exact B.
Qed.

Lemma rstrip_clean (s : str) : ends_clean s -> rstrip s = s.
Proof.
  unfold rstrip, ends_clean. intros H. rewrite (lstrip_clean _ H).
  apply rev_involutive.
Qed.

Lemma rstrip_blank_app (s ws : str) : blank ws -> rstrip (s ++ ws) = rstrip s.
Proof.
  intros B. unfold rstrip. rewrite rev_app_distr, lstrip_blank_app;
    [reflexivity|]. unfold blank in *. apply Forall_rev. exact B.
Qed.

Lemma rstrip_ends_clean (s : str) : rstrip s = [] \/ ends_clean (rstrip s).
Proof.
  unfold rstrip, ends_clean. rewrite rev_involutive.
  destruct (lstrip_starts_clean (rev s)) as [->|H]; [left; reflexivity|].
  right. exact H.
Qed.

Lemma starts_clean_app (s t : str) : starts_clean s -> starts_clean (s ++ t).
Proof. destruct s; simpl; [intros []|auto]. Qed.

Lemma ends_clean_app (s t : str) : ends_clean t -> ends_clean (s ++ t).
Proof.
  unfold ends_clean. rewrite rev_app_distr. apply starts_clean_app.
Qed.

(** Stripping a string that starts and ends with characters that are no
    white space changes nothing, whatever white space surrounds it. *)
Lemma strip_surrounded (ws1 s ws2 : str) :
  blank ws1 -> blank ws2 -> starts_clean s -> ends_clean s ->
  strip (ws1 ++ s ++ ws2) = s.
Proof.
  intros B1 B2 Hs He. unfold strip.
  rewrite (lstrip_blank_app ws1 _ B1).
  rewrite (lstrip_clean (s ++ ws2) (starts_clean_app s ws2 Hs)).
  rewrite (rstrip_blank_app s ws2 B2). apply rstrip_clean, He.
Qed.

Lemma strip_blank (s : str) : blank s -> strip s = [].
Proof. intros B. unfold strip. rewrite (lstrip_blank s B). reflexivity. Qed.

(** The result of [strip] is empty or starts and ends with characters that
    are no white space, and the string is the result with white space
    around it. *)
Lemma strip_decompose (s : str) :
  exists ws1 ws2,
    s = ws1 ++ strip s ++ ws2 /\ blank ws1 /\ blank ws2 /\
    (strip s = [] \/ starts_clean (strip s) /\ ends_clean (strip s)).
Proof.
  destruct (lstrip_decompose s) as (ws1 & E1 & B1).
  destruct (rstrip_decompose (lstrip s)) as (ws2 & E2 & B2).
  exists ws1, ws2. unfold strip. split; [congruence|].
  split; [assumption|]. split; [assumption|].
  destruct (rstrip_ends_clean (lstrip s)) as [H|H]; [left; exact H|].
  right. split; [|exact H].
  destruct (lstrip_starts_clean s) as [E|Hs].
  - rewrite E in *. unfold rstrip in H. simpl in H. destruct H.
  - rewrite E2 in Hs. destruct (rstrip (lstrip s)) as [|c r] eqn:R.
    + unfold ends_clean in H. simpl in H. destruct H.
    + exact Hs.
Qed.

Lemma strip_idempotent (s : str) : strip (strip s) = strip s.
Proof.
  destruct (strip_decompose s) as (_ & _ & _ & _ & _ & [E|[Hs He]]).
  - rewrite E. reflexivity.
  - rewrite <- (app_nil_r (strip s)) at 1.
    apply (strip_surrounded [] (strip s) []); try constructor; assumption.
Qed.

Lemma strip_nil_blank (s : str) : strip s = [] <-> blank s.
Proof.
  split; [|apply strip_blank].
  intros E. destruct (strip_decompose s) as (ws1 & ws2 & Es & B1 & B2 & _).
  rewrite E in Es. rewrite Es. unfold blank in *. apply Forall_app. auto.
Qed.

(** *** [split] *)

Lemma split_on_not_nil (sep : char) (s : str) : split_on sep s <> [].
Proof.
  destruct s as [|c s]; simpl; [discriminate|].
  destruct (char_eqb c sep); [discriminate|].
  destruct (split_on sep s); discriminate.
Qed.

Lemma split_on_free (sep : char) (s : str) :
  ~ In sep s -> split_on sep s = [s].
Proof.
  induction s as [|c s IH]; intros H; [reflexivity|]. simpl.
  destruct (char_eqb c sep) eqn:E.
  - apply char_eqb_eq in E. subst. exfalso. apply H. left. reflexivity.
  - rewrite IH; [reflexivity|]. intros Hin. apply H. right. exact Hin.
Qed.

Lemma split_on_app (sep : char) (a b : str) :
  ~ In sep a -> split_on sep (a ++ sep :: b) = a :: split_on sep b.
Proof.
  induction a as [|c a IH]; intros H; simpl.
  - rewrite char_eqb_refl. reflexivity.
  - destruct (char_eqb c sep) eqn:E.
    + apply char_eqb_eq in E. subst. exfalso. apply H. left. reflexivity.
    + rewrite IH; [reflexivity|]. intros Hin. apply H. right. exact Hin.
Qed.

(** Joining the parts with the separator gives the string back. *)
Lemma join_split_on (sep : char) (s : str) : join sep (split_on sep s) = s.
Proof.
  induction s as [|c s IH]; [reflexivity|]. simpl split_on.
  destruct (char_eqb c sep) eqn:E.
  - apply char_eqb_eq in E. subst c.
    pose proof (split_on_not_nil sep s) as N.
    destruct (split_on sep s) as [|p ps]; [congruence|].
    change (join sep ([] :: p :: ps)) with (sep :: join sep (p :: ps)).
    rewrite IH. reflexivity.
  - pose proof (split_on_not_nil sep s) as N.
    destruct (split_on sep s) as [|p ps]; [congruence|].
    destruct ps as [|p' ps].
    + simpl in *. congruence.
    + change (join sep ((c :: p) :: p' :: ps))
        with (c :: (p ++ sep :: join sep (p' :: ps))).
      change (join sep (p :: p' :: ps))
        with (p ++ sep :: join sep (p' :: ps)) in IH.
      rewrite IH. reflexivity.
Qed.

(** No part holds the separator. *)
Lemma split_on_parts_free (sep : char) (s : str) :
  Forall (fun part => ~ In sep part) (split_on sep s).
Proof.
  induction s as [|c s IH]; simpl.
  - constructor; [intros []|constructor].
  - destruct (char_eqb c sep) eqn:E.
    + constructor; [intros []|exact IH].
    + destruct (split_on sep s) as [|p ps]; [constructor; [|constructor]|].
      * intros [H|[]]. subst. rewrite char_eqb_refl in E. discriminate.
      * inversion IH as [|? ? Hp Hps]; subst. constructor; [|exact Hps].
        intros [H|H]; [|exact (Hp H)].
        subst. rewrite char_eqb_refl in E. discriminate.
Qed.

(** Splitting the join of parts that hold no separator gives the parts
    back. *)
Lemma split_on_join (sep : char) (parts : list str) :
  parts <> [] -> Forall (fun part => ~ In sep part) parts ->
  split_on sep (join sep parts) = parts.
Proof.
  induction parts as [|p ps IH]; [congruence|]. intros _ H.
  inversion H as [|? ? Hp Hps]; subst.
  destruct ps as [|p' ps].
  - simpl. apply split_on_free, Hp.
  - change (join sep (p :: p' :: ps)) with (p ++ sep :: join sep (p' :: ps)).
    rewrite (split_on_app sep p _ Hp), IH; [reflexivity|discriminate|exact Hps].
Qed.

(** A string splits in exactly two parts when it holds the separator
    once. *)
Lemma split_on_two (sep : char) (s a b : str) :
  split_on sep s = [a; b] <->
  s = a ++ sep :: b /\ ~ In sep a /\ ~ In sep b.
Proof.
  split.
  - intros E. pose proof (join_split_on sep s) as J.
    pose proof (split_on_parts_free sep s) as F. rewrite E in J, F.
    simpl in J. symmetry in J.
    inversion F as [|? ? Ha F']. inversion F' as [|? ? Hb _]. auto.
  - intros (-> & Ha & Hb).
    rewrite (split_on_app sep a b Ha), (split_on_free sep b Hb). reflexivity.
Qed.

End TextFacts.

(** ** The name table file *)

Module LoadFacts.

Import TextFacts ResolverFacts.

Lemma is_space_TAB : is_space TAB = true.
Proof. reflexivity. Qed.


Lemma split_on_length (sep : char) (s : str) :
  List.length (split_on sep s) = S (count_occ N.eq_dec s sep).
Proof.
  induction s as [|c s IH]; [reflexivity|]. simpl.
  destruct (char_eqb c sep) eqn:E.
  - apply char_eqb_eq in E. subst. simpl. rewrite IH.
    destruct (N.eq_dec sep sep); congruence.
  - apply char_eqb_neq in E. destruct (N.eq_dec c sep); [congruence|].
    pose proof (split_on_not_nil sep s).
    destruct (split_on sep s); [congruence|]. simpl in *. exact IH.
Qed.

(** A line whose stripped text is a key, a tab and a value is assigned. *)
Lemma load_line_entry (d : Dict.t) (line k v : str) :
  strip line = k ++ TAB :: v -> ~ In TAB k -> ~ In TAB v ->
  load_line d line = Dict.setitem d k v.
Proof.
  intros E Hk Hv. unfold load_line.
  rewrite (proj2 (split_on_two TAB (strip line) k v)); [reflexivity|auto].
Qed.

(** What a line does to the mapping: nothing, or the assignment of a key that
    starts and a value that ends with a character that is no white space. *)
Lemma load_line_cases (d : Dict.t) (line : str) :
  load_line d line = d \/
  exists k v,
    strip line = k ++ TAB :: v /\ loaded_entry (k, v) /\
    load_line d line = Dict.setitem d k v.
Proof.
  unfold load_line.
  destruct (split_on TAB (strip line)) as [|k [|v [|? ?]]] eqn:E; auto.
  right. exists k, v. apply split_on_two in E. destruct E as (E & Hk & Hv).
  split; [exact E|]. split; [|reflexivity].
  destruct (strip_decompose line) as (_ & _ & _ & _ & _ & [N|[Hs He]]).
  - rewrite N in E. destruct k; discriminate.
  - rewrite E in Hs, He. unfold loaded_entry. cbn [fst snd].
    split; [|split; [|split; assumption]].
    + destruct k as [|c k]; [|exact Hs].
      simpl in Hs. rewrite is_space_TAB in Hs. discriminate.
    + unfold ends_clean in *. rewrite rev_app_distr in He. simpl in He.
      destruct (rev v) as [|c r]; [|exact He].
      simpl in He. rewrite is_space_TAB in He. discriminate.
Qed.

Lemma setitem_Forall (P : str * str -> Prop) (d : Dict.t) (k v : str) :
  Forall P d -> P (k, v) -> Forall P (Dict.setitem d k v).
Proof.
  intros Hd Hkv. induction Hd as [|[k' v'] d Hx Hd IH]; simpl.
  - constructor; [assumption|constructor].
  - destruct (str_eqb k' k) eqn:E.
    + apply str_eqb_eq in E. subst. constructor; assumption.
    + constructor; assumption.
Qed.

Lemma setitem_fresh (d : Dict.t) (k v : str) :
  ~ In k (Dict.keys d) -> Dict.setitem d k v = d ++ [(k, v)].
Proof.
  induction d as [|[k' v'] d IH]; simpl; intros H; [reflexivity|].
  destruct (str_eqb k' k) eqn:E.
  - apply str_eqb_eq in E. tauto.
  - rewrite IH; [reflexivity|tauto].
Qed.

Lemma keys_setitem_present (d : Dict.t) (k v : str) :
  In k (Dict.keys d) -> Dict.keys (Dict.setitem d k v) = Dict.keys d.
Proof.
  induction d as [|[k' v'] d IH]; simpl; intros H; [destruct H|].
  destruct (str_eqb k' k) eqn:E; [reflexivity|].
  simpl. f_equal. apply IH. destruct H as [H|H]; [|exact H].
  subst. rewrite str_eqb_refl in E. discriminate.
Qed.

End LoadFacts.

Import TextFacts LoadFacts.

(** X1.  Every entry of the table that [load_character_mapping] leaves has a
    key that starts and a value that ends with a character that is no white
    space (so neither is empty), neither holds a tab, and no two entries have
    the same key, provided the table before the call is so. *)
Theorem load_character_mapping_invariant (file : list str) (d : Dict.t) :
  Forall loaded_entry d -> NoDup (Dict.keys d) ->
  Forall loaded_entry (load_character_mapping file d) /\
  NoDup (Dict.keys (load_character_mapping file d)).
Proof.
  unfold load_character_mapping. revert d.
  induction file as [|line file IH]; intros d Hd Hn; [auto|].
  simpl. destruct (load_line_cases d line) as [->|(k & v & _ & Hkv & ->)].
  - apply IH; assumption.
  - apply IH.
    + apply setitem_Forall; assumption.
    + apply keys_setitem_NoDup, Hn.
Qed.

Lemma load_character_mapping_invariant_witness :
  Forall loaded_entry (load_character_mapping example_file []) /\
  NoDup (Dict.keys (load_character_mapping example_file [])) /\
  load_character_mapping example_file []
  = [(lit "Imp", lit "imp_2"); (lit "Scarlet Woman", lit "scarlet_woman")].
Proof.
  destruct (load_character_mapping_invariant example_file []
              (Forall_nil _) (NoDup_nil _)) as [H1 H2].
  split; [exact H1|]. split; [exact H2|]. vm_compute. reflexivity.
Defined.



(** X3.  A line with a key and a value makes the key map to the value and
    leaves the other keys as they were; a key the table has keeps its place
    among the keys, a new key goes last. *)
Theorem load_line_updates (d : Dict.t) (line k v : str) :
  strip line = k ++ TAB :: v -> ~ In TAB k -> ~ In TAB v ->
  (forall k', Dict.get (load_line d line) k'
              = if str_eqb k k' then Some v else Dict.get d k') /\
  (In k (Dict.keys d) -> Dict.keys (load_line d line) = Dict.keys d) /\
  (~ In k (Dict.keys d) ->
   Dict.keys (load_line d line) = Dict.keys d ++ [k]).
Proof.
  intros E Hk Hv. rewrite (load_line_entry d line k v E Hk Hv).
  split; [intros k'; apply get_setitem|]. split.
  - apply keys_setitem_present.
  - intros H. rewrite (setitem_fresh d k v H). unfold Dict.keys.
    rewrite map_app. reflexivity.
Qed.

Lemma load_line_updates_witness :
  Dict.get (load_line example_table (table_line (lit "Imp", lit "imp_2")))
           (lit "Imp") = Some (lit "imp_2") /\
  Dict.keys (load_line example_table (table_line (lit "Imp", lit "imp_2")))
  = Dict.keys example_table.
Proof.
  destruct (load_line_updates example_table
              (table_line (lit "Imp", lit "imp_2")) (lit "Imp") (lit "imp_2"))
    as (Hg & Hp & _).
  - vm_compute. reflexivity.
  - intros H; repeat (destruct H as [H|H]; [discriminate|]); exact H.
  - intros H; repeat (destruct H as [H|H]; [discriminate|]); exact H.
  - split.
    + rewrite Hg. reflexivity.
    + apply Hp. right. left. reflexivity.
Defined.

(** X4.  A line whose stripped text does not hold exactly one tab leaves the
    mapping as it is; so does a line whose value is missing, because the strip
    removes the tab after the key. *)
Theorem load_line_skips (d : Dict.t) (line : str) :
  (count_occ N.eq_dec (strip line) TAB <> 1 -> load_line d line = d) /\
  (forall k ws, line = k ++ TAB :: ws -> ~ In TAB k -> blank ws ->
     load_line d line = d).
Proof.
  assert (count_occ N.eq_dec (strip line) TAB <> 1 -> load_line d line = d)
    as Hc.
  { intros H. unfold load_line.
    pose proof (split_on_length TAB (strip line)) as L.
    destruct (split_on TAB (strip line)) as [|k [|v [|? ?]]]; try reflexivity.
    simpl in L. congruence. }
  split; [exact Hc|].
  intros k ws -> Hk Hws. apply Hc.
  assert (strip (k ++ TAB :: ws) = strip k) as ->.
  { unfold strip.
    destruct (lstrip_decompose k) as (w1 & E1 & B1).
    rewrite E1 at 1. rewrite <- app_assoc, (lstrip_blank_app w1 _ B1).
    destruct (lstrip_starts_clean k) as [N|Hs].
    - rewrite N. change (lstrip ([] ++ TAB :: ws)) with (lstrip ws).
      rewrite (lstrip_blank ws Hws). reflexivity.
    - rewrite (lstrip_clean _ (starts_clean_app _ (TAB :: ws) Hs)).
      apply (rstrip_blank_app _ (TAB :: ws)).
      constructor; [apply is_space_TAB|exact Hws]. }
  destruct (strip_decompose k) as (w1 & w2 & E & _).
  assert (~ In TAB (strip k)) as Hn.
  { intros Hin. apply Hk. rewrite E. apply in_or_app. right.
    apply in_or_app. left. exact Hin. }
  rewrite (proj1 (count_occ_not_In N.eq_dec (strip k) TAB) Hn). discriminate.
Qed.

Lemma load_line_skips_witness :
  load_line example_table (lit "Mayor" ++ [TAB; LF]) = example_table.
Proof.
  destruct (load_line_skips example_table (lit "Mayor" ++ [TAB; LF]))
    as [_ H].
  apply (H (lit "Mayor") [LF]).
  - reflexivity.
  - intros Hin; repeat (destruct Hin as [Hin|Hin]; [discriminate|]);
      exact Hin.
  - constructor; [reflexivity|constructor].
Defined.

(** ** The character names of a page *)

Module NamesFacts.

Import TextFacts.

Lemma blankb_blank (line : str) : blankb line = true <-> blank line.
Proof.
  unfold blankb. rewrite str_eqb_eq. apply strip_nil_blank.
Qed.

Lemma starts_clean_join (line : str) (lines : list str) :
  starts_clean line -> starts_clean (join LF (line :: lines)).
Proof.
  destruct lines; [auto|]. intros H.
  change (join LF (line :: s :: lines))
    with (line ++ LF :: join LF (s :: lines)).
  apply starts_clean_app, H.
Qed.

Lemma ends_clean_join (lines : list str) (line : str) :
  ends_clean line -> ends_clean (join LF (lines ++ [line])).
Proof.
  intros H. induction lines as [|l lines IH]; [exact H|].
  destruct lines as [|l' lines].
  - simpl. apply (ends_clean_app l (LF :: line)).
    apply (ends_clean_app [LF] line H).
  - change (join LF ((l :: l' :: lines) ++ [line]))
      with (l ++ LF :: join LF ((l' :: lines) ++ [line])).
    apply (ends_clean_app l (LF :: _)).
    apply (ends_clean_app [LF] _ IH).
Qed.

End NamesFacts.

Import NamesFacts.

(** X16.  No name handed to the resolver is all white space (or empty), and
    none holds a line feed. *)
Theorem character_names_of_text_names (raw : str) :
  Forall (fun name => ~ blank name /\ name <> [] /\ ~ In LF name)
         (character_names_of_text raw).
Proof.
  unfold character_names_of_text. apply Forall_forall. intros name H.
  apply filter_In in H. destruct H as [Hin Hb].
  apply negb_true_iff in Hb.
  assert (~ blank name) as Hn.
  { intros B. apply blankb_blank in B. unfold blankb in B. congruence. }
  split; [exact Hn|]. split.
  - intros ->. apply Hn. constructor.
  - pose proof (split_on_parts_free LF (strip raw)) as F.
    rewrite Forall_forall in F. apply F, Hin.
Qed.

(** X17.  The names of a text of several lines are its lines that are not all
    white space, in order and as they stand, their own leading and trailing
    white space included; white space around the whole text does not count.
    The first line has to start and the last one to end with a character that
    is no white space. *)
Theorem character_names_of_text_lines (ws1 ws2 first last : str)
    (middle : list str) :
  blank ws1 -> blank ws2 ->
  starts_clean first -> ends_clean last ->
  Forall (fun line => ~ In LF line) (first :: middle ++ [last]) ->
  character_names_of_text
    (ws1 ++ join LF (first :: middle ++ [last]) ++ ws2)
  = filter (fun line => negb (blankb line)) (first :: middle ++ [last]).
Proof.
  intros B1 B2 Hs He Hf. unfold character_names_of_text.
  rewrite strip_surrounded; try assumption.
  - rewrite split_on_join; [reflexivity|discriminate|exact Hf].
  - apply starts_clean_join, Hs.
  - apply (ends_clean_join (first :: middle) last He).
Qed.

(** A line that ends with a space is kept with the space. *)
Lemma character_names_of_text_lines_witness :
  character_names_of_text
    (lit "Imp " ++ [LF] ++ lit "  " ++ [LF] ++ lit "Baron" ++ [LF; 12%N])
  = [lit "Imp "; lit "Baron"].
Proof.
  assert (blank [LF; 12%N]) as B2 by (repeat constructor).
  assert (Forall (fun line => ~ In LF line)
                 (lit "Imp " :: [lit "  "] ++ [lit "Baron"])) as Hf.
  { repeat constructor;
      intros Hin; repeat (destruct Hin as [Hin|Hin]; [discriminate|]);
      exact Hin. }
  pose proof (character_names_of_text_lines [] [LF; 12%N]
                (lit "Imp ") (lit "Baron") [lit "  "]
                (Forall_nil _) B2 eq_refl eq_refl Hf) as H.
  vm_compute in H. vm_compute. exact H.
Defined.


Section ExtractCharacterNamesFacts.

Variable character_mapping : Dict.t.
Variable gray : pixel -> Z.
Variable rgb_image : Type.
Variable cvtColor_BGR2RGB : ndarray Z -> result rgb_image.
Variable image_to_string : rgb_image -> result str.


End ExtractCharacterNamesFacts.


(** ** More on the name resolver *)

Module ResolverMore.

Import Levenshtein LevenshteinFacts ResolverFacts.

(** An alignment with [n] edits bridges a difference in length of at most
    [n]. *)
Lemma edits_length (s t : str) (n : nat) :
  edits s t n ->
  List.length s <= List.length t + n /\ List.length t <= List.length s + n.
Proof. induction 1; simpl; lia. Qed.

Lemma distance_length_gap (s t : str) :
  List.length s <= List.length t + distance s t /\
  List.length t <= List.length s + distance s t.
Proof. apply edits_length, edits_distance. Qed.

Lemma edits_max (s : str) :
  forall t, edits s t (Nat.max (List.length s) (List.length t)).
Proof.
  induction s as [|a s IH]; intros t.
  - simpl. apply edits_insert_all.
  - destruct t as [|b t].
    + rewrite Nat.max_0_r. apply edits_delete_all.
    + simpl. apply edits_substitute, IH.
Qed.

Lemma distance_le_max (s t : str) :
  distance s t <= Nat.max (List.length s) (List.length t).
Proof. apply distance_le_edits, edits_max. Qed.

(** The loop adds what it resolves to the list it starts from. *)
Lemma map_names_loop_acc (d : Dict.t) (names : list str) :
  forall acc,
    map_names_loop d names acc
    = (ids <- map_names_loop d names [] ;; Ok (acc ++ ids)).
Proof.
  induction names as [|name names IH]; intros acc; simpl.
  - rewrite app_nil_r. reflexivity.
  - destruct (resolve_name d name) as [id|e]; simpl; [|reflexivity].
    rewrite (IH (acc ++ [id])), (IH [id]).
    destruct (map_names_loop d names []) as [ids|e]; simpl; [|reflexivity].
    rewrite <- app_assoc. reflexivity.
Qed.

Lemma get_NoDup (d : Dict.t) (k v : str) :
  NoDup (Dict.keys d) -> In (k, v) d -> Dict.get d k = Some v.
Proof.
  induction d as [|[k' v'] d IH]; simpl; intros Hn Hin; [destruct Hin|].
  inversion Hn as [|? ? Hk Hd]; subst.
  destruct Hin as [E|Hin].
  - injection E as -> ->. rewrite str_eqb_refl. reflexivity.
  - destruct (str_eqb k' k) eqn:E; [|auto].
    apply str_eqb_eq in E. subst. exfalso. apply Hk.
    apply (in_map fst) in Hin. exact Hin.
Qed.

Lemma map_names_concat (d : Dict.t) (names1 names2 : list str) :
  map_scanned_character_names_to_json_equivalent d (names1 ++ names2)
  = (ids1 <- map_scanned_character_names_to_json_equivalent d names1 ;;
     ids2 <- map_scanned_character_names_to_json_equivalent d names2 ;;
     Ok (ids1 ++ ids2)).
Proof.
  unfold map_scanned_character_names_to_json_equivalent.
  generalize (@nil (option str)) at 1 2.
  induction names1 as [|name names1 IH]; intros acc; simpl.
  - rewrite (map_names_loop_acc d names2 acc).
    destruct (map_names_loop d names2 []); reflexivity.
  - destruct (resolve_name d name) as [id|e]; simpl; [|reflexivity].
    apply IH.
Qed.

End ResolverMore.

Import ResolverMore.

(** X12.  Resolving a list of names that is two lists put together is
    resolving the first, then the second, and putting the ids together; an
    error of the first comes before one of the second. *)
Theorem map_names_app (d : Dict.t) (names1 names2 : list str) :
  map_scanned_character_names_to_json_equivalent d (names1 ++ names2)
  = (ids1 <- map_scanned_character_names_to_json_equivalent d names1 ;;
     ids2 <- map_scanned_character_names_to_json_equivalent d names2 ;;
     Ok (ids1 ++ ids2)).
Proof. apply map_names_concat. Qed.

(** X13.  A name more than 3 characters longer or shorter than every key of
    the table cannot be resolved: a list that holds one makes the resolution
    raise the error of an unmatched name. *)
Theorem names_of_wrong_length_fail (d : Dict.t) (names : list str)
    (name : str) :
  d <> [] -> In name names ->
  (forall k, In k (Dict.keys d) ->
     3 + List.length k < List.length name \/
     3 + List.length name < List.length k) ->
  exists n,
    unmatched d n /\
    map_scanned_character_names_to_json_equivalent d names
    = Raise (RuntimeError (no_match_message n)).
Proof.
  intros Hd Hin Hlen.
  assert (unmatched d name) as Hu.
  { split.
    - destruct (Dict.get d name) as [v|] eqn:G; [|reflexivity].
      apply get_in, (in_map fst) in G. apply Hlen in G. simpl in G. lia.
    - intros k Hk. pose proof (distance_length_gap name k).
      destruct (Hlen k Hk); lia. }
  destruct (first_unmatched d names Hd (ex_intro _ name (conj Hin Hu)))
    as (before & n & after & -> & Hb & Hn).
  exists n. split; [exact Hn|].
  apply map_names_loop_raise.
  - intros m Hm. apply (Hb m Hm).
  - destruct (resolve_name_cases d n Hd) as [(id & _ & H)|[_ H]];
      [contradiction | exact H].
Qed.

Lemma names_of_wrong_length_fail_witness :
  exists n,
    unmatched example_table n /\
    map_scanned_character_names_to_json_equivalent example_table
      [lit "Imp"; lit "Fortune Teller of the town"]
    = Raise (RuntimeError (no_match_message n)).
Proof.
  apply (names_of_wrong_length_fail example_table _
           (lit "Fortune Teller of the town")).
  - discriminate.
  - right. left. reflexivity.
  - intros k [<-|[<-|[<-|[]]]]; vm_compute; lia.
Defined.

(** X14.  When the table has a key of at most 3 characters, every name of at
    most 3 characters resolves to some id of the table, whatever it reads, the
    empty name included. *)
Theorem short_names_always_resolve (d : Dict.t) (name k : str) :
  In k (Dict.keys d) -> List.length k <= 3 -> List.length name <= 3 ->
  exists k' id, In (k', id) d /\ resolve_name d name = Ok (Some id).
Proof.
  intros Hk Lk Ln.
  assert (d <> []) as Hd by (intros ->; destruct Hk).
  destruct (resolve_name_cases d name Hd) as [(id & H & _)|[[_ Hu] _]].
  - destruct (resolve_name_ok_id d name (Some id) H) as (k' & id' & Hin & E).
    injection E as <-. exists k', id. auto.
  - specialize (Hu k Hk). pose proof (distance_le_max name k). lia.
Qed.

Lemma short_names_always_resolve_witness :
  exists k' id,
    In (k', id) example_table /\
    resolve_name example_table (lit "xyz") = Ok (Some id).
Proof.
  apply (short_names_always_resolve example_table (lit "xyz") (lit "Imp")).
  - right. left. reflexivity.
  - vm_compute. lia.
  - vm_compute. lia.
Defined.

(** X15.  Resolving the keys of a table, in order, gives the ids of the table,
    in order, when no key occurs twice. *)
Theorem table_keys_resolve (d : Dict.t) :
  NoDup (Dict.keys d) ->
  map_scanned_character_names_to_json_equivalent d (Dict.keys d)
  = Ok (map (fun entry => Some (snd entry)) d).
Proof.
  intros Hn.
  assert (forall d', incl d' d ->
            map_scanned_character_names_to_json_equivalent d (Dict.keys d')
            = Ok (map (fun entry => Some (snd entry)) d')) as H.
  { induction d' as [|[k v] d' IH]; intros Hi; [reflexivity|].
    change (Dict.keys ((k, v) :: d')) with ([k] ++ Dict.keys d').
    rewrite map_names_concat, IH by (intros x Hx; apply Hi; right; exact Hx).
    unfold map_scanned_character_names_to_json_equivalent. simpl.
    rewrite (resolve_name_exact d k v); [reflexivity|].
    apply get_NoDup; [exact Hn|]. apply Hi. left. reflexivity. }
  apply H, incl_refl.
Qed.

Lemma table_keys_resolve_witness :
  NoDup (Dict.keys example_table) /\
  map_scanned_character_names_to_json_equivalent example_table
    (Dict.keys example_table)
  = Ok [Some (lit "scarlet_woman"); Some (lit "imp"); Some (lit "baron")].
Proof.
  assert (NoDup (Dict.keys example_table)) as Hn.
  { repeat constructor; simpl;
      intros H; repeat (destruct H as [H|H]; [discriminate|]); exact H. }
  split; [exact Hn|]. rewrite (table_keys_resolve example_table Hn).
  reflexivity.
Defined.

(** ** More on the chroma filter *)


Lemma bgr2gray_grey (c : Z) :
  (0 <= c)%Z -> bgr2gray (mk_pixel c c c) = c.
Proof.
  intros H. unfold bgr2gray. cbn [ch0 ch1 ch2].
  rewrite Z.shiftr_div_pow2 by lia. change (2 ^ 15)%Z with 32768%Z.
  symmetry. apply (Z.div_unique _ _ c 16384); lia.
Qed.

Lemma uint8_sub_cases (threshold a b : Z) :
  uint8 a -> uint8 b -> (0 <= threshold)%Z ->
  (threshold < uint8_abs (uint8_sub a b))%Z <-> pair_masked threshold a b.
Proof.
  unfold uint8, uint8_abs, uint8_sub, pair_masked. intros Ha Hb Ht.
  destruct (Z.le_gt_cases b a) as [L|G].
  - rewrite Z.mod_small by lia. lia.
  - replace ((a - b) mod 256)%Z with (a - b + 256)%Z; [lia|].
    apply (Z.mod_unique _ _ (-1)); lia.
Qed.

Section RemoveColorMore.

Variable gray : pixel -> Z.


(** X6.  Which pixels the filter makes white: those with a pair of channels,
    the lower index first, that counts as coloured. A pair counts not only
    when the first channel exceeds the second by more than the threshold, but
    also when it is below the second by less than 256 minus the threshold, and
    it does not count when it is below by more. *)
Theorem remove_color_pixel_white (threshold : Z) (p : pixel) :
  pixel_ok p -> (0 <= threshold)%Z ->
  (non_grey_mask threshold p = true <->
   pair_masked threshold (ch0 p) (ch1 p) \/
   pair_masked threshold (ch0 p) (ch2 p) \/
   pair_masked threshold (ch1 p) (ch2 p)) /\
  (non_grey_mask threshold p = true ->
   remove_color_pixel gray threshold p = 255%Z) /\
  (non_grey_mask threshold p = false ->
   remove_color_pixel gray threshold p = gray p).
Proof.
  intros (H0 & H1 & H2) Ht. split.
  - unfold non_grey_mask. rewrite !orb_true_iff, !Z.gtb_lt.
    rewrite !uint8_sub_cases by assumption. tauto.
  - unfold remove_color_pixel. split; intros ->; reflexivity.
Qed.

(** X7.  A pixel whose three channels are equal is never made white. *)
Theorem remove_color_pixel_grey (threshold c : Z) :
  uint8 c -> (0 <= threshold)%Z ->
  remove_color_pixel gray threshold (mk_pixel c c c) = gray (mk_pixel c c c).
Proof.
  intros Hc Ht. unfold remove_color_pixel, non_grey_mask, uint8_abs,
    uint8_sub. cbn [ch0 ch1 ch2]. rewrite Z.sub_diag, Z.mod_0_l by lia.
  assert ((0 >? threshold)%Z = false) as ->
    by (rewrite Z.gtb_ltb; apply Z.ltb_ge; exact Ht).
  reflexivity.
Qed.

End RemoveColorMore.


(** A pixel whose blue is one below its green is made white. *)
Lemma remove_color_pixel_white_witness :
  non_grey_mask default_threshold (mk_pixel 100 101 101) = true /\
  remove_color_pixel bgr2gray default_threshold (mk_pixel 100 101 101)
  = 255%Z.
Proof.
  assert (pixel_ok (mk_pixel 100 101 101)) as Hp
    by (unfold pixel_ok, uint8; simpl; lia).
  assert (0 <= default_threshold)%Z as Ht by (unfold default_threshold; lia).
  destruct (remove_color_pixel_white bgr2gray default_threshold
              (mk_pixel 100 101 101) Hp Ht) as (Hm & Hw & _).
  assert (non_grey_mask default_threshold (mk_pixel 100 101 101) = true)
    as M.
  { apply Hm. left. right. unfold default_threshold. simpl. lia. }
  split; [exact M | exact (Hw M)].
Defined.

Lemma remove_color_pixel_grey_witness :
  remove_color_pixel bgr2gray default_threshold (mk_pixel 77 77 77) = 77%Z.
Proof.
  rewrite (remove_color_pixel_grey bgr2gray default_threshold 77).
  - apply bgr2gray_grey. lia.
  - unfold uint8. lia.
  - unfold default_threshold. lia.
Defined.

(** ** More on the geometric normaliser *)

Lemma normalize_height_size_positive (h w height : Z) :
  (0 < h)%Z ->
  normalize_height_size h w height
  = Ok (height,
        Float.to_int (Float.mul (Float.of_int height)
                                (Float.round_ratio w h))).
Proof.
  intros Hh. unfold normalize_height_size, Float.true_divide.
  assert ((h =? 0)%Z = false) as -> by (apply Z.eqb_neq; lia).
  assert ((h <? 0)%Z = false) as -> by (apply Z.ltb_ge; lia).
  reflexivity.
Qed.

(** The width asked for is the integer part of the exact quotient, or one
    less when the quotient is an integer. *)
Lemma normalize_height_width_cases (h w : Z) :
  (0 < h < 2 ^ 31)%Z -> (0 < w < 2 ^ 31)%Z ->
  let r := Float.to_int (Float.mul (Float.of_int A4_HEIGHT_PIXELS)
                                   (Float.round_ratio w h)) in
  r = (A4_HEIGHT_PIXELS * w / h)%Z \/
  r = (A4_HEIGHT_PIXELS * w / h - 1)%Z /\
  ((A4_HEIGHT_PIXELS * w) mod h = 0)%Z.
Proof.
  intros Hh Hw r.
  assert (A4_HEIGHT_PIXELS * w < 2 ^ 51)%Z as HP.
  { unfold A4_HEIGHT_PIXELS.
    change (2 ^ 31)%Z with 2147483648%Z in Hw.
    change (2 ^ 51)%Z with 2251799813685248%Z. lia. }
  destruct (FloatFacts.to_int_mul_ratio h w A4_HEIGHT_PIXELS Hw Hh
              ltac:(unfold A4_HEIGHT_PIXELS; lia) HP) as [H1 H2].
  destruct (Z.eq_dec ((A4_HEIGHT_PIXELS * w) mod h) 0) as [E|E].
  - destruct (H2 E); auto.
  - left. apply H1, E.
Qed.

(** X8.  The width asked for never exceeds the exact [2970 * w / h] and falls
    short of it by less than 2 pixels; it is 0, a size without columns, when
    the image is more than 2970 times as high as it is wide. *)
Theorem normalize_height_size_bounds (h w : Z) :
  (0 < h < 2 ^ 31)%Z -> (0 < w < 2 ^ 31)%Z ->
  exists w_norm,
    normalize_height_size h w A4_HEIGHT_PIXELS
    = Ok (A4_HEIGHT_PIXELS, w_norm) /\
    (w_norm * h <= A4_HEIGHT_PIXELS * w < (w_norm + 2) * h)%Z /\
    ((A4_HEIGHT_PIXELS * w < h)%Z -> w_norm = 0%Z).
Proof.
  intros Hh Hw. eexists. split.
  - apply normalize_height_size_positive. lia.
  - pose proof (normalize_height_width_cases h w Hh Hw) as C.
    cbv zeta in C. set (r := Float.to_int _) in *.
    pose proof (Z.div_mod (A4_HEIGHT_PIXELS * w) h ltac:(lia)) as D.
    pose proof (Z.mod_pos_bound (A4_HEIGHT_PIXELS * w) h ltac:(lia)) as B.
    set (q := (A4_HEIGHT_PIXELS * w / h)%Z) in *.
    set (rho := ((A4_HEIGHT_PIXELS * w) mod h)%Z) in *.
    split.
    + destruct C as [->|[-> E]]; lia.
    + intros Hlt. assert (q = 0%Z) as Hq.
      { unfold q. apply Z.div_small. unfold A4_HEIGHT_PIXELS in *. lia. }
      destruct C as [->|[-> E]]; [exact Hq|].
      exfalso. rewrite Hq, E in D. unfold A4_HEIGHT_PIXELS in *. lia.
Qed.

Lemma normalize_height_size_bounds_witness :
  (0 < 5000 < 2 ^ 31)%Z /\ (0 < 1 < 2 ^ 31)%Z /\
  normalize_height_size 5000 1 A4_HEIGHT_PIXELS = Ok (2970, 0)%Z.
Proof.
  assert (0 < 5000 < 2 ^ 31)%Z as Hh by (vm_compute; split; congruence).
  assert (0 < 1 < 2 ^ 31)%Z as Hw by (vm_compute; split; congruence).
  split; [exact Hh|]. split; [exact Hw|].
  destruct (normalize_height_size_bounds 5000 1 Hh Hw) as (w_norm & E & _ & Z0).
  rewrite E, Z0; [reflexivity|]. vm_compute. reflexivity.
Defined.

(** X9.  Normalising a page that has the target height already keeps its width
    or takes one pixel off it. *)
Theorem normalize_height_size_canonical (w : Z) :
  (0 < w < 2 ^ 31)%Z ->
  exists w_norm,
    normalize_height_size A4_HEIGHT_PIXELS w A4_HEIGHT_PIXELS
    = Ok (A4_HEIGHT_PIXELS, w_norm) /\
    (w_norm = w \/ w_norm = (w - 1)%Z).
Proof.
  intros Hw. eexists. split.
  - apply normalize_height_size_positive. unfold A4_HEIGHT_PIXELS. lia.
  - assert (0 < A4_HEIGHT_PIXELS < 2 ^ 31)%Z as Hh
      by (unfold A4_HEIGHT_PIXELS; vm_compute; split; congruence).
    pose proof (normalize_height_width_cases A4_HEIGHT_PIXELS w Hh Hw) as C.
    cbv zeta in C.
    rewrite Z.mul_comm, Z.div_mul in C by (unfold A4_HEIGHT_PIXELS; lia).
    destruct C as [C|[C _]]; auto.
Qed.

(** A canonical page 1512 pixels wide comes out 1511 pixels wide. *)
Lemma normalize_height_size_canonical_witness :
  (0 < 1512 < 2 ^ 31)%Z /\
  normalize_height_size A4_HEIGHT_PIXELS 1512 A4_HEIGHT_PIXELS
  = Ok (2970, 1511)%Z /\
  exists w_norm,
    normalize_height_size A4_HEIGHT_PIXELS 1512 A4_HEIGHT_PIXELS
    = Ok (A4_HEIGHT_PIXELS, w_norm) /\
    (w_norm = 1512%Z \/ w_norm = (1512 - 1)%Z).
Proof.
  assert (0 < 1512 < 2 ^ 31)%Z as Hw by (vm_compute; split; congruence).
  split; [exact Hw|]. split; [vm_compute; reflexivity|].
  exact (normalize_height_size_canonical 1512 Hw).
Defined.

(** ** More on the region extractor *)

Lemma nth_error_slice (A : Type) (a : list A) (start stop : Z) (i : nat) :
  (0 <= start <= stop)%Z -> (stop <= Z.of_nat (List.length a))%Z ->
  (Z.of_nat i < stop - start)%Z ->
  nth_error (slice a start stop) i = nth_error a (Z.to_nat start + i).
Proof.
  intros Hs He Hi. unfold slice, slice_length, slice_index.
  assert ((start <? 0)%Z = false) as -> by (apply Z.ltb_ge; lia).
  assert ((stop <? 0)%Z = false) as -> by (apply Z.ltb_ge; lia).
  rewrite nth_error_firstn, nth_error_skipn.
  rewrite !Z.min_l by lia.
  assert ((i <? Z.to_nat (Z.max (stop - start) 0)) = true) as ->
    by (apply Nat.ltb_lt; lia).
  reflexivity.
Qed.

Lemma crop_columns_witness :
  well_shaped (mk_ndarray 1600 (@nil (list Z))) /\
  width (slice2 (mk_ndarray 1600 (@nil (list Z))) 140 2925
                (180 + left_margin_size 1600) (414 + left_margin_size 1600))
  = 0%Z.
Proof.
  assert (1500 <= 1600 < 2 ^ 53)%Z as Hw by (vm_compute; split; congruence).
  assert (well_shaped (mk_ndarray 1600 (@nil (list Z)))) as Hs
    by (split; [simpl; lia|constructor]).
  split; [exact Hs|].
  destruct (crop_columns Z (mk_ndarray 1600 [])
              (slice2 (mk_ndarray 1600 (@nil (list Z))) 140 2925
                 (180 + left_margin_size 1600)
                 (414 + left_margin_size 1600)) Hw Hs eq_refl) as [_ H].
  exact H.
Defined.

(** X11.  The crop of a page of 2970 rows and at least 1739 columns has 2785
    rows and 234 columns, and its element at row [y] and column [x] is the
    element of the page at row [140 + y] and column [180 + margin + x]. *)
Theorem crop_to_character_names_elements (A : Type)
    (script_image : ndarray A) :
  well_shaped script_image ->
  shape script_image = (A4_HEIGHT_PIXELS, width script_image) ->
  (1739 <= width script_image < 2 ^ 53)%Z ->
  exists crop,
    crop_to_character_names script_image = Ok crop /\
    shape crop = (2785, 234)%Z /\
    forall y x, y < 2785 -> x < 234 ->
      at2 crop y x
      = at2 script_image (140 + y)
            (Z.to_nat (180 + left_margin_size (width script_image)) + x).
Proof.
  intros [Hw0 Hr] Hsh Hw.
  assert (Z.abs (width script_image - A4_WIDTH_PIXELS) < 2 ^ 53)%Z as Hb
    by (unfold A4_WIDTH_PIXELS;
        change (2 ^ 53)%Z with 9007199254740992%Z in *; lia).
  pose proof (left_margin_size_quot (width script_image) Hb) as Hm.
  unfold truncate, A4_WIDTH_PIXELS in Hm.
  pose proof (Z.quot_rem' (width script_image - 2100) 2) as Q.
  pose proof (Z.rem_bound_abs (width script_image - 2100) 2) as B.
  change (Z.abs 2) with 2%Z in B.
  assert (0 <= width script_image - 2100
          -> 0 <= Z.rem (width script_image - 2100) 2)%Z as S'
    by (intros; apply Z.rem_nonneg; lia).
  assert (width script_image - 2100 <= 0
          -> Z.rem (width script_image - 2100) 2 <= 0)%Z as S''
    by (intros; apply Z.rem_nonpos; lia).
  set (m := left_margin_size (width script_image)) in *.
  assert (0 <= 180 + m /\ 414 + m <= width script_image)%Z as [Hlo Hhi]
    by lia.
  injection Hsh as Hrows. unfold A4_HEIGHT_PIXELS in Hrows.
  exists (slice2 script_image 140 2925 (180 + m) (414 + m)). split.
  - unfold crop_to_character_names.
    assert ((width script_image <? 1500)%Z = false) as ->
      by (apply Z.ltb_ge; lia).
    rewrite character_names_bounds_eq. reflexivity.
  - split.
    + unfold shape. rewrite width_slice2. unfold slice2. cbn [rows].
      rewrite length_map, slice_length_spec, Hrows.
      unfold slice_length, slice_index.
      assert ((414 + m <? 0)%Z = false) as -> by (apply Z.ltb_ge; lia).
      assert ((180 + m <? 0)%Z = false) as -> by (apply Z.ltb_ge; lia).
      change (2925 <? 0)%Z with false. change (140 <? 0)%Z with false.
      cbv iota. f_equal; lia.
    + intros y x Hy Hx. unfold at2, slice2. cbn [rows].
      rewrite nth_error_map, nth_error_slice by lia.
      change (Z.to_nat 140) with 140.
      destruct (nth_error (rows script_image) (140 + y)) as [r|] eqn:E;
        [|reflexivity].
      cbn [option_map]. apply nth_error_slice; try lia.
      rewrite Forall_forall in Hr. rewrite (Hr r); [lia|].
      apply (nth_error_In _ _ E).
Qed.

Lemma crop_to_character_names_elements_witness :
  exists crop,
    crop_to_character_names (mk_ndarray 2100 (repeat (repeat 7%Z 2100) 2970))
    = Ok crop /\
    shape crop = (2785, 234)%Z.
Proof.
  destruct (crop_to_character_names_elements Z
              (mk_ndarray 2100 (repeat (repeat 7%Z 2100) 2970)))
    as (crop & E & S & _).
  - split; [simpl; lia|]. cbn [rows width].
    apply Forall_forall. intros r Hr. apply repeat_spec in Hr. subst r.
    rewrite repeat_length. reflexivity.
  - unfold shape. cbn [rows width]. rewrite repeat_length. reflexivity.
  - cbn [width]. vm_compute. split; congruence.
  - exists crop. split; assumption.
Defined.

(** The title band of a page of at least 100 rows is its rows 50 to 99, as
    they are. *)
Theorem title_band_rows (A : Type) (script_image : ndarray A) :
  well_shaped script_image ->
  100 <= List.length (rows script_image) ->
  slice2 script_image 50 100 0 (width script_image)
  = mk_ndarray (width script_image)
               (firstn 50 (skipn 50 (rows script_image))).
Proof.
  intros [Hw Hr] Hl. unfold slice2. f_equal.
  - unfold slice_length, slice_index. simpl.
    destruct (width script_image <? 0)%Z eqn:E;
      [apply Z.ltb_lt in E|apply Z.ltb_ge in E]; lia.
  - assert (slice (rows script_image) 50 100
            = firstn 50 (skipn 50 (rows script_image))) as ->.
    { unfold slice, slice_length, slice_index. simpl.
      rewrite !Z.min_l by lia. reflexivity. }
    rewrite <- (map_id (firstn 50 (skipn 50 (rows script_image)))) at 2.
    apply map_ext_in. intros r Hin.
    assert (In r (rows script_image)) as Hin'.
    { rewrite <- (firstn_skipn 50 (rows script_image)).
      apply in_or_app. right.
      rewrite <- (firstn_skipn 50 (skipn 50 (rows script_image))).
      apply in_or_app. left. exact Hin. }
    rewrite Forall_forall in Hr. specialize (Hr r Hin').
    unfold slice, slice_length, slice_index. simpl.
    rewrite <- Hr.
    destruct (Z.of_nat (List.length r) <? 0)%Z eqn:E;
      [apply Z.ltb_lt in E; lia|].
    rewrite Z.min_id, (Z.min_l 0) by lia.
    rewrite Z.sub_0_r, Z.max_l, Nat2Z.id by lia.
    change (Z.to_nat 0) with 0. apply firstn_all.
Qed.

Lemma title_band_rows_witness :
  slice2 (mk_ndarray 3 (repeat [1; 2; 3]%Z 120)) 50 100 0 3
  = mk_ndarray 3 (repeat [1; 2; 3]%Z 50).
Proof.
  assert (well_shaped (mk_ndarray 3 (repeat [1; 2; 3]%Z 120))) as Hs.
  { split; [simpl; lia|]. cbn [rows width].
    apply Forall_forall. intros r Hr. apply repeat_spec in Hr. subst r.
    reflexivity. }
  assert (100 <= List.length
                   (rows (mk_ndarray 3 (repeat [1; 2; 3]%Z 120)))) as Hl
    by (cbn [rows]; rewrite repeat_length; lia).
  pose proof (title_band_rows Z _ Hs Hl) as H.
  cbn [width] in H. rewrite H. reflexivity.
Defined.

(** ** More on the metadata parser *)

Module TitleFacts.

Import TextFacts.

Lemma after_prefix_sound (sep : str) :
  forall s rest, after_prefix sep s = Some rest -> s = sep ++ rest.
Proof.
  induction sep as [|a sep IH]; intros s rest H.
  - destruct s; simpl in H; injection H as <-; reflexivity.
  - destruct s as [|b s]; simpl in H; [discriminate|].
    destruct (char_eqb a b) eqn:E; [|discriminate].
    apply char_eqb_eq in E. subst b. simpl. f_equal. apply IH, H.
Qed.

Lemma partition_sound (sep : str) (s : str) :
  forall before rest,
    partition sep s = Some (before, rest) -> s = before ++ sep ++ rest.
Proof.
  induction s as [|c s IH]; intros before rest H; simpl in H.
  - destruct (after_prefix sep []) as [r|] eqn:E; [|discriminate].
    injection H as <- <-. apply (after_prefix_sound sep [] r E).
  - destruct (after_prefix sep (c :: s)) as [r|] eqn:E.
    + injection H as <- <-. apply (after_prefix_sound sep (c :: s) r E).
    + destruct (partition sep s) as [[b r]|] eqn:P; [|discriminate].
      injection H as <- <-. simpl. f_equal. apply IH. reflexivity.
Qed.

Lemma partition_prefix (sep s : str) :
  partition sep s
  = match after_prefix sep s with
    | Some rest => Some ([], rest)
    | None =>
        match s with
        | [] => None
        | c :: s' =>
            match partition sep s' with
            | Some (before, rest) => Some (c :: before, rest)
            | None => None
            end
        end
    end.
Proof. destruct s; reflexivity. Qed.

Lemma partition_occurs (sep s : str) :
  partition sep s = None <-> ~ occurs sep s.
Proof.
  split.
  - intros H (before & after & ->). revert H.
    induction before as [|c before IH]; intros H.
    + rewrite partition_prefix in H.
      change ([] ++ sep ++ after) with (sep ++ after) in H.
      rewrite after_prefix_app in H. discriminate.
    + simpl in H.
      destruct (after_prefix sep (c :: before ++ sep ++ after));
        [discriminate|].
      destruct (partition sep (before ++ sep ++ after)) as [[b r]|];
        [discriminate|]. apply IH. reflexivity.
  - intros H. destruct (partition sep s) as [[b r]|] eqn:P; [|reflexivity].
    exfalso. apply H. exists b, r. apply partition_sound, P.
Qed.

(** The cut is at the first [by]: none starts before it. *)
Lemma partition_by_first (s before rest : str) :
  partition (lit "by") s = Some (before, rest) ->
  ~ occurs (lit "by") (before ++ lit "b").
Proof.
  revert before rest. induction s as [|c s IH]; intros before rest H.
  - simpl in H. discriminate.
  - rewrite partition_prefix in H.
    destruct (after_prefix (lit "by") (c :: s)) as [r|] eqn:E.
    + injection H as <- <-. intros (x & y & Hxy).
      apply (f_equal (@List.length char)) in Hxy.
      rewrite !length_app in Hxy. simpl in Hxy. lia.
    + destruct (partition (lit "by") s) as [[b r]|] eqn:P; [|discriminate].
      injection H as <- <-. intros (x & y & Hxy).
      destruct x as [|x0 x].
      * pose proof (partition_sound _ _ _ _ P) as Es. subst s.
        simpl in Hxy. injection Hxy as -> Hb.
        destruct b as [|b0 b]; simpl in Hb; [discriminate|].
        injection Hb as -> _. simpl in E. discriminate.
      * simpl in Hxy. injection Hxy as _ Hb.
        apply (IH b r eq_refl). exists x, y. exact Hb.
Qed.

End TitleFacts.

Import TitleFacts.

(** X19.  What the parser makes of every title. When the trimmed title holds
    [by], it is cut at the first [by], also inside a word: the script name is
    what comes before, trimmed, the author what comes after, trimmed, no white
    space is left around either and the script name holds no [by]. When it
    holds none, the script name is the title as it came and the author is
    empty. *)
Theorem script_meta_data_of_title_cases (raw : str) :
  (occurs (lit "by") (strip raw) ->
   exists before rest,
     strip raw = before ++ lit "by" ++ rest /\
     ~ occurs (lit "by") (before ++ lit "b") /\
     script_meta_data_of_title raw = (strip before, strip rest) /\
     strip (strip before) = strip before /\
     strip (strip rest) = strip rest) /\
  (~ occurs (lit "by") (strip raw) ->
   script_meta_data_of_title raw = (raw, [])).
Proof.
  split.
  - intros H.
    destruct (partition (lit "by") (strip raw)) as [[before rest]|] eqn:P.
    + exists before, rest.
      split; [apply partition_sound, P|].
      split; [apply (partition_by_first _ _ _ P)|].
      split; [apply script_meta_data_two_parts, P|].
      split; apply TextFacts.strip_idempotent.
    + apply partition_occurs in P. contradiction.
  - intros H. apply script_meta_data_one_part, partition_occurs, H.
Qed.

(** The title [Ruby Tuesday] has no author, and yet is cut in two. *)
Lemma script_meta_data_of_title_cases_witness :
  occurs (lit "by") (strip (lit "Ruby Tuesday")) /\
  script_meta_data_of_title (lit "Ruby Tuesday")
  = (lit "Ru", lit "Tuesday") /\
  exists before rest,
    strip (lit "Ruby Tuesday") = before ++ lit "by" ++ rest /\
    ~ occurs (lit "by") (before ++ lit "b") /\
    script_meta_data_of_title (lit "Ruby Tuesday")
    = (strip before, strip rest) /\
    strip (strip before) = strip before /\
    strip (strip rest) = strip rest.
Proof.
  assert (occurs (lit "by") (strip (lit "Ruby Tuesday"))) as H
    by (exists (lit "Ru"), (lit " Tuesday"); reflexivity).
  split; [exact H|]. split; [reflexivity|].
  destruct (script_meta_data_of_title_cases (lit "Ruby Tuesday")) as [C _].
  exact (C H).
Defined.

Section ExtractScriptMetaDataFacts.

Variable A : Type.
Variable cvtColor_BGR2RGB : ndarray A -> ndarray A.
Variable image_to_string : ndarray A -> result str.

(** X20.  The script name and the author depend on rows 50 to 99 of the page
    only: two pages of the same width with the same rows 50 to 99 give the
    same result. *)
Theorem extract_script_meta_data_band (a b : ndarray A) :
  well_shaped a -> well_shaped b ->
  100 <= List.length (rows a) -> 100 <= List.length (rows b) ->
  width a = width b ->
  firstn 50 (skipn 50 (rows a)) = firstn 50 (skipn 50 (rows b)) ->
  extract_script_meta_data cvtColor_BGR2RGB image_to_string a
  = extract_script_meta_data cvtColor_BGR2RGB image_to_string b.
Proof.
  intros Ha Hb La Lb Hw Hr. unfold extract_script_meta_data.
  rewrite (title_band_rows A a Ha La), (title_band_rows A b Hb Lb), Hw, Hr.
  reflexivity.
Qed.

End ExtractScriptMetaDataFacts.

Lemma extract_script_meta_data_band_witness :
  extract_script_meta_data (fun image => image)
    (fun image => Ok (List.concat (rows image)))
    (mk_ndarray 1 (repeat [98%N] 50 ++ repeat [121%N] 50))
  = extract_script_meta_data (fun image => image)
    (fun image => Ok (List.concat (rows image)))
    (mk_ndarray 1 (repeat [97%N] 50 ++ repeat [121%N] 60)).
Proof.
  apply extract_script_meta_data_band.
  - split; [simpl; lia|]. cbn [rows width]. apply Forall_forall.
    intros r Hr. apply in_app_or in Hr.
    destruct Hr as [Hr|Hr]; apply repeat_spec in Hr; subst r; reflexivity.
  - split; [simpl; lia|]. cbn [rows width]. apply Forall_forall.
    intros r Hr. apply in_app_or in Hr.
    destruct Hr as [Hr|Hr]; apply repeat_spec in Hr; subst r; reflexivity.
  - cbn [rows]. rewrite length_app, !repeat_length. lia.
  - cbn [rows]. rewrite length_app, !repeat_length. lia.
  - reflexivity.
  - reflexivity.
Defined.

(** ** More on the document assembler *)

(** X21.  A double quote in the author or in the script name ends the field
    where it stands: the document never reads back with that author, or with
    that script name. *)
Theorem combine_to_json_string_quote (characters : list (option str))
    (a b other : str) :
  plain_but_line_breaks a ->
  (forall name ids,
     read_script_document
       (combine_to_json_string characters other (a ++ quote :: b))
     <> Some (without_line_breaks (a ++ quote :: b), name, ids)) /\
  (plain_but_line_breaks other ->
   forall author ids,
     read_script_document
       (combine_to_json_string characters (a ++ quote :: b) other)
     <> Some (author, without_line_breaks (a ++ quote :: b), ids)).
Proof.
  intros Ha.
  pose proof (without_line_breaks_plain a Ha) as Pa.
  split.
  - intros name ids. rewrite combine_to_json_string_text.
    unfold read_script_document. rewrite after_prefix_app.
    rewrite without_line_breaks_app, <- app_assoc.
    change (without_line_breaks (quote :: b))
      with (quote :: without_line_breaks b).
    cbn [app]. rewrite (json_string_tail_plain _ _ Pa).
    intros H.
    repeat match type of H with
           | match ?x with _ => _ end = _ => destruct x; try discriminate
           | (let '(_, _) := ?x in _) = _ => destruct x
           end.
    injection H as H _ _. apply (f_equal (@List.length char)) in H.
    rewrite length_app in H. simpl in H. lia.
  - intros Ho author ids. rewrite combine_to_json_string_text.
    pose proof (without_line_breaks_plain other Ho) as Po.
    unfold read_script_document. rewrite after_prefix_app.
    change (litq "','name':'" ++ without_line_breaks (a ++ quote :: b)
            ++ litq "'}"
            ++ List.concat
                 (map (fun c => element (without_line_breaks (format c)))
                      characters) ++ lit "]")
      with (quote :: (litq ",'name':'"
                      ++ without_line_breaks (a ++ quote :: b) ++ litq "'}"
                      ++ List.concat
                           (map (fun c => element
                                            (without_line_breaks (format c)))
                                characters) ++ lit "]")).
    rewrite (json_string_tail_plain _ _ Po), after_prefix_app.
    rewrite without_line_breaks_app, <- app_assoc.
    change (without_line_breaks (quote :: b))
      with (quote :: without_line_breaks b).
    cbn [app]. rewrite (json_string_tail_plain _ _ Pa).
    intros H.
    repeat match type of H with
           | match ?x with _ => _ end = _ => destruct x; try discriminate
           | (let '(_, _) := ?x in _) = _ => destruct x
           end.
    injection H as _ H _. apply (f_equal (@List.length char)) in H.
    rewrite length_app in H. simpl in H. lia.
Qed.

Lemma combine_to_json_string_quote_witness :
  read_script_document
    (combine_to_json_string [Some (lit "imp")] (lit "Trouble Brewing")
       (lit "John " ++ quote :: lit "Doc" ++ quote :: lit " Doe"))
  <> Some (without_line_breaks
             (lit "John " ++ quote :: lit "Doc" ++ quote :: lit " Doe"),
           lit "Trouble Brewing", [lit "imp"]).
Proof.
  assert (plain_but_line_breaks (lit "John ")) as Ha.
  { apply Forall_forall. intros c Hc. right. right.
    apply (proj1 (forallb_forall plain (lit "John ")) eq_refl c Hc). }
  destruct (combine_to_json_string_quote [Some (lit "imp")] (lit "John ")
              (lit "Doc" ++ quote :: lit " Doe") (lit "Trouble Brewing") Ha)
    as [H _].
  apply H.
Defined.

(** ** The whole pipeline *)

Lemma script_meta_data_author_trimmed (raw : str) :
  strip (snd (script_meta_data_of_title raw))
  = snd (script_meta_data_of_title raw).
Proof.
  unfold script_meta_data_of_title, split1.
  destruct (partition (lit "by") (strip raw)) as [[before rest]|].
  - apply TextFacts.strip_idempotent.
  - destruct (strip raw) as [|? [|? [|? ?]]]; reflexivity.
Qed.

Lemma combine_to_json_string_no_line_breaks
    (characters : list (option str)) (script_name author : str) :
  ~ In LF (combine_to_json_string characters script_name author) /\
  ~ In CR (combine_to_json_string characters script_name author).
Proof.
  unfold combine_to_json_string. rewrite replace_line_breaks.
  apply without_line_breaks_free.
Qed.

Section ScriptImageToJsonFacts.

Variable character_mapping : Dict.t.
Variable gray : pixel -> Z.
Variable rgb_image : Type.
Variable resize : color_image -> Z -> Z -> result color_image.
Variable names_BGR2RGB : ndarray Z -> result rgb_image.
Variable title_BGR2RGB : color_image -> color_image.
Variable names_to_string : rgb_image -> result str.
Variable title_to_string : color_image -> result str.

(** X22.  What the pipeline returns when it returns: the JSON text is the
    document assembled from the returned script name and author and from ids
    that are all canonical ids of the name table; it holds no line feed and no
    carriage return; and the author has no white space around it. *)
Theorem script_image_to_json_result (input_image : color_image)
    (script_name author json : str) :
  script_image_to_json character_mapping gray resize names_BGR2RGB
    title_BGR2RGB names_to_string title_to_string input_image
  = Ok (script_name, author, json) ->
  (exists ids,
     json = combine_to_json_string ids script_name author /\
     Forall (fun id => exists k v, In (k, v) character_mapping /\ id = Some v)
            ids) /\
  ~ In LF json /\ ~ In CR json /\
  strip author = author.
Proof.
  unfold script_image_to_json. intros H.
  destruct (normalize_height resize input_image A4_HEIGHT_PIXELS)
    as [page|e]; [|discriminate]. cbn [bind] in H.
  destruct (extract_character_names character_mapping gray names_BGR2RGB
              names_to_string page) as [ids|e] eqn:En; [|discriminate].
  cbn [bind] in H.
  destruct (extract_script_meta_data title_BGR2RGB title_to_string page)
    as [[name' author']|e] eqn:Em; [|discriminate].
  cbn [bind] in H. injection H as -> -> <-.
  split; [|split; [|split]].
  - exists ids. split; [reflexivity|].
    unfold extract_character_names in En.
    destruct (crop_to_character_names page) as [crop|?]; [|discriminate].
    cbn [bind] in En.
    destruct (names_BGR2RGB _) as [rgb|?]; [|discriminate].
    cbn [bind] in En.
    destruct (took_too_long _ _) as [raw|?]; [|discriminate].
    cbn [bind] in En.
    apply map_names_loop_ok in En. destruct En as (ids' & -> & HF).
    simpl. clear - HF.
    induction HF as [|n id names ids Hn _ IH]; constructor.
    + apply (ResolverFacts.resolve_name_ok_id character_mapping n id Hn).
    + exact IH.
  - apply combine_to_json_string_no_line_breaks.
  - apply combine_to_json_string_no_line_breaks.
  - unfold extract_script_meta_data in Em.
    destruct (title_to_string _) as [raw|[]]; try discriminate.
    injection Em as Em.
    pose proof (script_meta_data_author_trimmed raw) as T.
    rewrite Em in T. exact T.
Qed.

(** A resize that makes the image as wide as it is asked to. *)
Hypothesis resize_width :
  forall image w h page, resize image w h = Ok page -> width page = w.

(** X23.  A page whose width is less than 1500 / 2970 of its height is
    refused, however many pixels it has: after normalisation it is narrower
    than 1500 pixels, and the pipeline raises the error of the narrow page (or
    the error of the resize, when the resize raises) before anything is
    recognised. *)
Theorem script_image_to_json_narrow (input_image : color_image) :
  let h := Z.of_nat (List.length (rows input_image)) in
  let w := width input_image in
  (0 < h < 2 ^ 31)%Z -> (0 < w < 2 ^ 31)%Z ->
  (A4_HEIGHT_PIXELS * w < 1500 * h)%Z ->
  exists w_norm,
    normalize_height_size h w A4_HEIGHT_PIXELS
    = Ok (A4_HEIGHT_PIXELS, w_norm) /\
    (w_norm < 1500)%Z /\
    script_image_to_json character_mapping gray resize names_BGR2RGB
      title_BGR2RGB names_to_string title_to_string input_image
    = match resize input_image w_norm A4_HEIGHT_PIXELS with
      | Ok _ => Raise (RuntimeError (narrow_message w_norm))
      | Raise e => Raise e
      end.
Proof.
  intros h w Hh Hw Hlt.
  pose proof (normalize_height_size_positive h w A4_HEIGHT_PIXELS
                ltac:(lia)) as E.
  pose proof (normalize_height_width_cases h w Hh Hw) as C. cbv zeta in C.
  set (r := Float.to_int _) in *.
  assert (r < 1500)%Z as Hr.
  { assert (A4_HEIGHT_PIXELS * w / h < 1500)%Z
      by (apply Z.div_lt_upper_bound; lia).
    destruct C as [->|[-> _]]; lia. }
  exists r. split; [exact E|]. split; [exact Hr|].
  unfold script_image_to_json, normalize_height, shape.
  fold h. fold w. rewrite E. cbn [bind].
  destruct (resize input_image r A4_HEIGHT_PIXELS) as [page|e] eqn:R;
    [|reflexivity].
  cbn [bind]. unfold extract_character_names, crop_to_character_names.
  rewrite (resize_width _ _ _ _ R).
  apply Z.ltb_lt in Hr. rewrite Hr. reflexivity.
Qed.

End ScriptImageToJsonFacts.

(** A scan of 1000 by 3000 pixels is refused as too narrow. *)
Lemma script_image_to_json_narrow_witness :
  script_image_to_json example_table bgr2gray
    (fun _ w h => Ok (mk_ndarray w (repeat [] (Z.to_nat h))))
    (fun image => Ok image) (fun image => image)
    (fun _ => Ok (lit "Imp")) (fun _ => Ok (lit "Trouble Brewing"))
    (mk_ndarray 1000 (repeat [] 3000))
  = Raise (RuntimeError
             (lit "Image is narrower than expected. width = 990.")).
Proof.
  destruct (script_image_to_json_narrow example_table bgr2gray (ndarray Z)
              (fun _ w h => Ok (mk_ndarray w (repeat [] (Z.to_nat h))))
              (fun image => Ok image) (fun image => image)
              (fun _ => Ok (lit "Imp")) (fun _ => Ok (lit "Trouble Brewing")))
    with (input_image := mk_ndarray 1000 (repeat (@nil pixel) 3000))
    as (w_norm & E & _ & H).
  - intros image w h page Hp. injection Hp as <-. reflexivity.
  - cbn [rows]. rewrite repeat_length. vm_compute. split; congruence.
  - cbn [width]. vm_compute. split; congruence.
  - cbn [rows width]. rewrite repeat_length. vm_compute. reflexivity.
  - cbn [rows width] in E. rewrite repeat_length in E.
    assert (normalize_height_size (Z.of_nat 3000) 1000 A4_HEIGHT_PIXELS
            = Ok (2970, 990)%Z) as E' by (vm_compute; reflexivity).
    rewrite E' in E. injection E as <-. rewrite H. reflexivity.
Defined.

(** A page that reads [Imp] and [Baron] under the title
    [Trouble Brewing by John Doe]. *)
Lemma script_image_to_json_result_witness :
  exists ids,
    litq ("[{'id':'_meta','author':'John Doe','name':'Trouble Brewing'},"
          ++ "'imp','baron']")
    = combine_to_json_string ids (lit "Trouble Brewing") (lit "John Doe") /\
    Forall (fun id => exists k v, In (k, v) example_table /\ id = Some v) ids.
Proof.
  assert (script_image_to_json example_table bgr2gray
            (fun image _ _ => Ok image)
            (fun image => Ok image) (fun image => image)
            (fun _ => Ok (lit "Imp" ++ [LF] ++ lit "Baron" ++ [LF]))
            (fun _ => Ok (lit "Trouble Brewing by John Doe" ++ [LF]))
            (mk_ndarray 2100 (repeat [] 2970))
          = Ok (lit "Trouble Brewing", lit "John Doe",
                litq ("[{'id':'_meta','author':'John Doe',"
                      ++ "'name':'Trouble Brewing'},'imp','baron']"))) as H
    by (vm_compute; reflexivity).
  apply (script_image_to_json_result _ _ _ _ _ _ _ _ _ _ _ _ H).
Defined.

(** ** The chat command *)

Section CommandFacts.

Import Discord.

Variable fetch_message : option N -> result message.
Variable download : str -> result (option color_image).
Variable script_image_to_json : color_image -> result (str * str * str).
Variable reply : str -> result unit.

(** X25.  The command replies at most once, and what it replies is the request
    for an image, the one text for everything that went wrong, or the text for
    a page that was read: no message of an exception is ever replied. When the
    replies go through and the image is looked up without an exception, it
    replies exactly once. *)
Theorem process_json_request_replies (ctx_message : message) :
  let '(sent, ending) :=
    process_json_request fetch_message download script_image_to_json reply
                         ctx_message in
  List.length sent <= 1 /\
  (forall text, In text sent ->
     text = please_attach \/ text = went_wrong \/
     exists image script_name author json,
       script_image_to_json image = Ok (script_name, author, json) /\
       text = reply_body script_name author json) /\
  ((forall text, reply text = Ok tt) ->
   forall found,
     get_referenced_image_or_parent fetch_message ctx_message
     = Returned found ->
     List.length sent = 1 /\ ending = Returned tt).
Proof.
  unfold process_json_request, reply_and_return.
  destruct (get_referenced_image_or_parent fetch_message ctx_message)
    as [[attached|]|msg|e].
  - destruct (download (url attached)) as [[image|]|e].
    + destruct (script_image_to_json image) as [[[name author] json]|e] eqn:E.
      * destruct (reply (reply_body name author json)) as [[]|e] eqn:R.
        -- split; [simpl; lia|]. split.
           ++ intros text [<-|[]]. right. right. eauto 6.
           ++ intros _ found _. auto.
        -- destruct (reply went_wrong) as [[]|e'] eqn:R'.
           ++ split; [simpl; lia|]. split.
              ** intros text [<-|[]]. auto.
              ** intros Hr. rewrite Hr in R. discriminate.
           ++ split; [simpl; lia|]. split; [intros ? []|].
              intros Hr. rewrite Hr in R. discriminate.
      * destruct (reply went_wrong) as [[]|e'] eqn:R'.
        -- split; [simpl; lia|]. split; [intros text [<-|[]]; auto|auto].
        -- split; [simpl; lia|]. split; [intros ? []|].
           intros Hr. rewrite Hr in R'. discriminate.
    + destruct (reply went_wrong) as [[]|e'] eqn:R'.
      * split; [simpl; lia|]. split; [intros text [<-|[]]; auto|auto].
      * split; [simpl; lia|]. split; [intros ? []|].
        intros Hr. rewrite Hr in R'. discriminate.
    + destruct (reply went_wrong) as [[]|e'] eqn:R'.
      * split; [simpl; lia|]. split; [intros text [<-|[]]; auto|auto].
      * split; [simpl; lia|]. split; [intros ? []|].
        intros Hr. rewrite Hr in R'. discriminate.
  - destruct (reply please_attach) as [[]|e'] eqn:R'.
    + split; [simpl; lia|]. split; [intros text [<-|[]]; auto|auto].
    + split; [simpl; lia|]. split; [intros ? []|].
      intros Hr. rewrite Hr in R'. discriminate.
  - split; [simpl; lia|]. split; [intros ? []|]. intros _ found H.
    discriminate.
  - split; [simpl; lia|]. split; [intros ? []|]. intros _ found H.
    discriminate.
Qed.

(** What [get_referenced_image] returns is the first attachment of the
    message, and an image. *)
Lemma get_referenced_image_first (message : message) (image : attachment) :
  get_referenced_image message = Returned (Some image) ->
  hd_error (attachments message) = Some image /\
  exists media_type,
    content_type image = Some media_type /\
    startswith media_type (lit "image/") = true.
Proof.
  unfold get_referenced_image.
  destruct (attachments message) as [|first rest]; [discriminate|].
  destruct (content_type first) as [media_type|] eqn:Hc; [|discriminate].
  destruct (startswith media_type (lit "image/")) eqn:Hs; [|discriminate].
  intros [= <-]. split; [reflexivity|].
  exists media_type. split; assumption.
Qed.

(** X24.  The attachment the command works on is an image, and it is the first
    attachment of the message itself or, when that message has no attachment
    or a first attachment that is no image, the first attachment of the
    message it replies to: an image behind another attachment is never found. *)
Theorem get_referenced_image_or_parent_first (ctx_message : message)
    (image : attachment) :
  get_referenced_image_or_parent fetch_message ctx_message
  = Returned (Some image) ->
  (exists media_type,
     content_type image = Some media_type /\
     startswith media_type (lit "image/") = true) /\
  (hd_error (attachments ctx_message) = Some image \/
   get_referenced_image ctx_message = Returned None /\
   exists message_id parent_message,
     reference ctx_message = Some message_id /\
     fetch_message message_id = Ok parent_message /\
     hd_error (attachments parent_message) = Some image).
Proof.
  unfold get_referenced_image_or_parent.
  destruct (get_referenced_image ctx_message) as [[own|]|msg|e] eqn:Hown;
    try discriminate.
  - intros [= ->].
    destruct (get_referenced_image_first _ _ Hown) as (Hhd & Himg).
    split; [exact Himg|left; exact Hhd].
  - destruct (reference ctx_message) as [message_id|]; [|discriminate].
    destruct (fetch_message message_id) as [parent_message|e] eqn:Hf;
      [|discriminate].
    intros Hp.
    destruct (get_referenced_image_first _ _ Hp) as (Hhd & Himg).
    split; [exact Himg|right; split; [reflexivity|]].
    exists message_id, parent_message. repeat split; assumption.
Qed.

End CommandFacts.

(** A page without a matching name is answered once, with the one text for
    everything that went wrong. *)
Lemma process_json_request_replies_witness :
  let '(sent, ending) :=
    Discord.process_json_request (fun _ => Ok (Discord.mk_message [] None))
      (fun _ => Ok (Some (mk_ndarray 2100 [])))
      (fun _ => Raise (RuntimeError (no_match_message (lit "Zombuul"))))
      (fun _ => Ok tt)
      (Discord.mk_message
         [Discord.mk_attachment (Some (lit "image/png")) (lit "u")] None) in
  sent = [Discord.went_wrong] /\
  List.length sent = 1 /\ ending = Discord.Returned tt.
Proof.
  pose proof (process_json_request_replies
                (fun _ => Ok (Discord.mk_message [] None))
                (fun _ => Ok (Some (mk_ndarray 2100 [])))
                (fun _ => Raise (RuntimeError
                                   (no_match_message (lit "Zombuul"))))
                (fun _ => Ok tt)
                (Discord.mk_message
                   [Discord.mk_attachment (Some (lit "image/png")) (lit "u")]
                   None)) as H.
  destruct (Discord.process_json_request _ _ _ _ _) as [sent ending] eqn:E.
  destruct H as (_ & _ & H).
  split; [vm_compute in E; injection E as <- _; reflexivity|].
  apply (H (fun _ => eq_refl)
           (Some (Discord.mk_attachment (Some (lit "image/png")) (lit "u")))).
  reflexivity.
Defined.

(** A reply without attachments to a message with a picture works on that
    picture. *)
Lemma get_referenced_image_or_parent_first_witness :
  (exists media_type,
     Discord.content_type
       (Discord.mk_attachment (Some (lit "image/png")) (lit "b"))
     = Some media_type /\
     Discord.startswith media_type (lit "image/") = true) /\
  (hd_error (Discord.attachments (Discord.mk_message [] (Some (Some 7%N))))
   = Some (Discord.mk_attachment (Some (lit "image/png")) (lit "b")) \/
   Discord.get_referenced_image (Discord.mk_message [] (Some (Some 7%N)))
   = Discord.Returned None /\
   exists message_id parent_message,
     Discord.reference (Discord.mk_message [] (Some (Some 7%N)))
     = Some message_id /\
     (fun _ : option N =>
        Ok (Discord.mk_message
              [Discord.mk_attachment (Some (lit "image/png")) (lit "b");
               Discord.mk_attachment (Some (lit "text/plain")) (lit "a")]
              None)) message_id
     = Ok parent_message /\
     hd_error (Discord.attachments parent_message)
     = Some (Discord.mk_attachment (Some (lit "image/png")) (lit "b"))).
Proof.
  apply (get_referenced_image_or_parent_first
           (fun _ : option N =>
              Ok (Discord.mk_message
                    [Discord.mk_attachment (Some (lit "image/png")) (lit "b");
                     Discord.mk_attachment (Some (lit "text/plain"))
                                           (lit "a")]
                    None))
           (Discord.mk_message [] (Some (Some 7%N)))
           (Discord.mk_attachment (Some (lit "image/png")) (lit "b"))).
  reflexivity.
Defined.

(** X26.  A title that starts with [by] gives an empty script name, and then
    the reply shows no title line: the author is recognised and left out. *)
Theorem reply_body_title_by (raw rest json : str) :
  strip raw = lit "by" ++ rest ->
  script_meta_data_of_title raw = ([], strip rest) /\
  Discord.reply_body (fst (script_meta_data_of_title raw))
                     (snd (script_meta_data_of_title raw)) json
  = lit "```json" ++ [LF] ++ json ++ [LF] ++ lit "```".
Proof.
  intros E.
  assert (script_meta_data_of_title raw = ([], strip rest)) as M.
  { rewrite (script_meta_data_two_parts raw [] rest); [reflexivity|].
    rewrite E, TitleFacts.partition_prefix, after_prefix_app. reflexivity. }
  split; [exact M|]. rewrite M. reflexivity.
Qed.

Lemma reply_body_title_by_witness :
  script_meta_data_of_title (lit " by John Doe") = ([], lit "John Doe") /\
  Discord.reply_body [] (lit "John Doe") (lit "[]")
  = lit "```json" ++ [LF] ++ lit "[]" ++ [LF] ++ lit "```".
Proof.
  destruct (reply_body_title_by (lit " by John Doe") (lit " John Doe")
              (lit "[]") eq_refl) as [M R].
  split; [exact M|]. rewrite M in R. exact R.
Defined.
